(** * Safe exploration: environments, rollout loop and reachability contracts

    A shallow embedding of

    - [safe_exploration/environments/environments.py]
      (class [Environment] and its subclasses [InvertedPendulum] and
      [CartPole]),
    - [safe_exploration/episode_runner.py] (the rollout loop [do_rollout]),

    together with models of the safety-certificate checker and of the
    multi-step reachability engine.

    Numbers.  numpy arrays of floats are modelled as lists of exact rationals
    ([Q]); rounding is not modelled.  Where the code explicitly deals with
    non-finite floats ([np.nan_to_num] in [Environment.step]) the scalar type
    is extended with [NaN] and the two infinities.  Arrays are assumed to have
    the shapes stated in the docstrings; element-wise operations are written
    with a zip that stops at the shorter operand. *)

From Stdlib Require Import String.
From Stdlib Require Import List Bool Arith ZArith QArith Qminmax Qabs Lia Lqa.
From Stdlib Require Import Reals Lra.
Import ListNotations.

Local Open Scope Q_scope.

(** ** numpy operations on one- and two-dimensional arrays *)

Module NP.

Definition vec := list Q.
Definition mat := list (list Q).

(** Element-wise binary operation on two 1-D arrays of the same length. *)
Fixpoint map2 {A B C : Type} (f : A -> B -> C) (xs : list A) (ys : list B)
  : list C :=
  match xs, ys with
  | x :: xs', y :: ys' => f x y :: map2 f xs' ys'
  | _, _ => []
  end.

Definition vadd (x y : vec) : vec := map2 Qplus x y.
Definition vsub (x y : vec) : vec := map2 Qminus x y.
Definition vmul (x y : vec) : vec := map2 Qmult x y.

(** [arr ** -1], element-wise. *)
Definition vinv (x : vec) : vec := map Qinv x.

(** Inner product of two 1-D arrays. *)
Fixpoint dot (x y : vec) : Q :=
  match x, y with
  | a :: x', b :: y' => a * b + dot x' y'
  | _, _ => 0
  end.

(** [np.matmul(M, x)] for a 2-D [M] and a 1-D [x]. *)
Definition matvec (M : mat) (x : vec) : vec := map (fun row => dot row x) M.

Definition ncols (M : mat) : nat :=
  match M with
  | [] => 0%nat
  | r :: _ => length r
  end.

Definition col (j : nat) (M : mat) : vec := map (fun row => nth j row 0) M.

(** [M.T] *)
Definition transpose (M : mat) : mat :=
  map (fun j => col j M) (seq 0 (ncols M)).

(** [np.dot(A, B)] for two 2-D arrays. *)
Definition matmul (A B : mat) : mat :=
  map (fun row => map (fun j => dot row (col j B)) (seq 0 (ncols B))) A.

(** [np.linalg.multi_dot((A, B, C))]: the product of the three matrices.
    The library picks the cheapest bracketing; the product is written here
    from left to right. *)
Definition multi_dot3 (A B C : mat) : mat := matmul (matmul A B) C.

(** [np.diag(v)] for a 1-D [v]. *)
Definition diag (v : vec) : mat :=
  map (fun i => map (fun j => if Nat.eqb i j then nth i v 0 else 0)
                    (seq 0 (length v)))
      (seq 0 (length v)).

Definition eye (n : nat) : mat :=
  map (fun i => map (fun j => if Nat.eqb i j then 1 else 0) (seq 0 n))
      (seq 0 n).

Definition zeros (n m : nat) : mat := repeat (repeat 0 m) n.

(** [M[:, :k]] and [M[:, k:]] *)
Definition cols_before (k : nat) (M : mat) : mat := map (firstn k) M.
Definition cols_from (k : nat) (M : mat) : mat := map (skipn k) M.

(** [np.vstack] and [np.hstack] of two 2-D arrays. *)
Definition vstack (A B : mat) : mat := A ++ B.
Definition hstack (A B : mat) : mat := map2 (@app Q) A B.

Definition mneg (M : mat) : mat := map (map Qopp) M.

(** [(a > 0).any()] over a 2-D array. *)
Definition gt0 (q : Q) : bool := negb (Qle_bool q 0).
Definition any_gt0 (M : mat) : bool := existsb (existsb gt0) M.

(** [v - R] for a 1-D [v] of shape [(m,)] and a 2-D [R] of shape [(1, m)]:
    broadcasting gives the array of shape [(1, m)] with [v - R[0]]. *)
Definition vsub_broadcast_rows (v : vec) (R : mat) : mat :=
  map (fun row => vsub v row) R.

(** Scalars that may be non-finite. *)
Inductive xnum : Type :=
| Fin (q : Q)
| PInf
| NInf
| NaN.

(** Product of a finite factor and a possibly non-finite one. *)
Definition xscale (c : Q) (x : xnum) : xnum :=
  match x with
  | Fin q => Fin (c * q)
  | NaN => NaN
  | PInf => match c ?= 0 with Gt => PInf | Lt => NInf | Eq => NaN end
  | NInf => match c ?= 0 with Gt => NInf | Lt => PInf | Eq => NaN end
  end.

(** Largest finite double, [(2 - 2^-52) * 2^1023]. *)
Definition float_max : Q := inject_Z (2 ^ 1024 - 2 ^ 971).

(** [np.nan_to_num]: NaN becomes zero, the infinities become the largest
    finite values. *)
Definition nan_to_num1 (x : xnum) : Q :=
  match x with
  | Fin q => q
  | NaN => 0
  | PInf => float_max
  | NInf => - float_max
  end.

Definition nan_to_num (a : list xnum) : vec := map nan_to_num1 a.

(** [np.clip(a, a_min, a_max)] is [minimum(a_max, maximum(a, a_min))]. *)
Definition clip1 (x lo hi : Q) : Q := Qmin hi (Qmax x lo).

Definition clip (a lo hi : vec) : vec :=
  map2 (fun x b => clip1 x (fst b) (snd b)) a (combine lo hi).

(** Comparisons of a possibly non-finite scalar with a finite bound
    (every comparison with NaN is false). *)
Definition xlt (x : xnum) (b : Q) : Prop :=
  match x with
  | Fin q => q < b
  | NInf => True
  | PInf | NaN => False
  end.

Definition xgt (x : xnum) (b : Q) : Prop :=
  match x with
  | Fin q => b < q
  | PInf => True
  | NInf | NaN => False
  end.

(** [B] is [A] with column [j] multiplied by [v_j], for every [j]: what
    the product [A . diag(v)] amounts to. *)
Definition columns_scaled (A : mat) (v : vec) (B : mat) : Prop :=
  length B = length A /\
  forall i j row,
    nth_error A i = Some row -> (j < length v)%nat ->
    exists row', nth_error B i = Some row'
                 /\ length row' = length v
                 /\ nth j row' 0 == nth j row 0 * nth j v 0.

End NP.

(** ** Exceptions raised by the modelled code *)

Inductive exn : Type :=
| ValueError (msg : string)
| NotImplementedError (msg : string)
| ZeroDivisionError
| AttributeError (attribute : string).

(** A call either raises or returns. *)
Definition result (A : Type) : Type := (exn + A)%type.
Definition raise {A : Type} (e : exn) : result A := inl e.
Definition ret {A : Type} (a : A) : result A := inr a.

(** ** [environments.py] *)

Module Env.
Import NP.

(** The [scipy.integrate.ode] object held in [self.odesolver]: the current
    time and solution, the parameters passed to the right-hand side by
    [set_f_params], and the flag read by [successful()]. *)
Record Ode : Type := mkOde {
  ode_t : Q;
  ode_y : vec;
  ode_f_params : list xnum;
  ode_success : bool
}.

(** The library routines the module calls.  Their results are not
    computed here: the integrator and the matrix exponential of
    [cont2discrete] work on floats, [ConvexHull(...).equations] is qhull. *)
Class Libraries : Type := {
  (** one call of the integrator: right-hand-side parameters, solution and
      time before the call, target time; gives the solution and time
      reached and whether the integration succeeded *)
  ode_run : list xnum -> vec -> Q -> Q -> vec * Q * bool;
  (** [scipy.signal.cont2discrete((A, B, C, D), dt)] *)
  cont2discrete : mat * mat * mat * mat -> Q -> mat * mat * mat * mat * Q;
  (** [ConvexHull(points).equations] *)
  convex_hull_equations : mat -> mat;
  (** [np.deg2rad] and [np.sqrt] *)
  deg2rad : Q -> Q;
  np_sqrt : Q -> Q
}.

Definition set_f_params (o : Ode) (params : list xnum) : Ode :=
  mkOde (ode_t o) (ode_y o) params (ode_success o).

Definition set_initial_value (o : Ode) (y : vec) (t : Q) : Ode :=
  mkOde t y (ode_f_params o) (ode_success o).

(** [odesolver.integrate(t)]: one run of the integrator; the object keeps
    the solution, the time and the success flag, the solution is
    returned. *)
Definition integrate `{Libraries} (o : Ode) (t : Q) : Ode * vec :=
  let '(y, t', ok) := ode_run (ode_f_params o) (ode_y o) (ode_t o) t in
  (mkOde t' y (ode_f_params o) ok, y).

Definition successful (o : Ode) : bool := ode_success o.

(** The attributes of an [Environment] object; [ext] holds the attributes
    that only a subclass has. *)
Record Environment (X : Type) : Type := mkEnv {
  n_s : nat;
  n_u : nat;
  dt : Q;
  is_initialized : bool;
  iteration : nat;
  u_min : vec;
  u_max : vec;
  plant_noise : vec;
  verbosity : Z;
  p_origin : vec;
  current_episode_trajectory : list vec;
  current_state : vec;
  odesolver : Ode;
  (** [self.norm = [norm_x, norm_u]], [self.inv_norm] *)
  norm : vec * vec;
  inv_norm : vec * vec;
  h_mat_safe : mat;
  h_safe : mat;
  h_mat_obs : option mat;
  h_obs : option mat;
  ext : X
}.

Arguments mkEnv {X}.
Arguments n_s {X}. Arguments n_u {X}. Arguments dt {X}.
Arguments is_initialized {X}. Arguments iteration {X}.
Arguments u_min {X}. Arguments u_max {X}. Arguments plant_noise {X}.
Arguments verbosity {X}. Arguments p_origin {X}.
Arguments current_episode_trajectory {X}. Arguments current_state {X}.
Arguments odesolver {X}. Arguments norm {X}. Arguments inv_norm {X}.
Arguments h_mat_safe {X}. Arguments h_safe {X}. Arguments h_mat_obs {X}.
Arguments h_obs {X}. Arguments ext {X}.

(** Field updates used by [step]. *)
Definition with_solver_and_state {X} (e : Environment X) (o : Ode)
  (s : vec) : Environment X :=
  mkEnv (n_s e) (n_u e) (dt e) (is_initialized e) (S (iteration e))
        (u_min e) (u_max e) (plant_noise e) (verbosity e) (p_origin e)
        (current_episode_trajectory e ++ [s]) s o
        (norm e) (inv_norm e) (h_mat_safe e) (h_safe e) (h_mat_obs e)
        (h_obs e) (ext e).

Definition with_ext {X} (e : Environment X) (x : X) : Environment X :=
  mkEnv (n_s e) (n_u e) (dt e) (is_initialized e) (iteration e)
        (u_min e) (u_max e) (plant_noise e) (verbosity e) (p_origin e)
        (current_episode_trajectory e) (current_state e) (odesolver e)
        (norm e) (inv_norm e) (h_mat_safe e) (h_safe e) (h_mat_obs e)
        (h_obs e) x.

(** Field updates used by [reset] and by the subclasses' [_reset]. *)
Definition with_start_state {X} (e : Environment X) (s : vec)
  : Environment X :=
  mkEnv (n_s e) (n_u e) (dt e) true 0
        (u_min e) (u_max e) (plant_noise e) (verbosity e) (p_origin e)
        [s] s (odesolver e)
        (norm e) (inv_norm e) (h_mat_safe e) (h_safe e) (h_mat_obs e)
        (h_obs e) (ext e).

Definition with_odesolver {X} (e : Environment X) (o : Ode)
  : Environment X :=
  mkEnv (n_s e) (n_u e) (dt e) (is_initialized e) (iteration e)
        (u_min e) (u_max e) (plant_noise e) (verbosity e) (p_origin e)
        (current_episode_trajectory e) (current_state e) o
        (norm e) (inv_norm e) (h_mat_safe e) (h_safe e) (h_mat_obs e)
        (h_obs e) (ext e).

(** The abstract methods of [Environment] that the base class calls.
    [_reset] and [_check_current_state] may update the object.  The noise
    argument of [state_to_obs] is the sample
    [randn(n_s) * sqrt(plant_noise)] drawn when [add_noise] is true, [None]
    when it is false. *)
Class Methods (X : Type) : Type := {
  _reset : Environment X -> Environment X;
  _check_current_state : Environment X -> bool * Z * Environment X;
  state_to_obs : Environment X -> vec -> option vec -> vec;
  _jac_dynamics : Environment X -> mat
}.

(** Whether the class of the object defines [plot_safety_bounds] and
    [plot_state], the methods the rollout calls when it is asked to plot
    the trajectory: [InvertedPendulum] defines them, [CartPole] and the
    base class do not. *)
Class Plotting (X : Type) : Type := {
  has_plot_methods : bool
}.

Section Base.
Context {X : Type} `{Libraries} `{Methods X}.

Definition normalize (e : Environment X) (state action : option vec)
  : option vec * option vec :=
  (option_map (vmul (fst (inv_norm e))) state,
   option_map (vmul (snd (inv_norm e))) action).

Definition unnormalize (e : Environment X) (state action : option vec)
  : option vec * option vec :=
  (option_map (vmul (fst (norm e))) state,
   option_map (vmul (snd (norm e))) action).

(** Properties [u_min_norm] and [u_max_norm]. *)
Definition u_min_norm (e : Environment X) : vec :=
  vmul (snd (inv_norm e)) (u_min e).

Definition u_max_norm (e : Environment X) : vec :=
  vmul (snd (inv_norm e)) (u_max e).

(** [Environment.reset]; [start] is the state drawn by
    [_sample_start_state]. *)
Definition reset (e : Environment X) (start : vec) : Environment X * vec :=
  let e1 := _reset (with_start_state e start) in
  (e1, state_to_obs e1 (current_state e1) None).

(** [self.norm[1] * action] for an action that may hold non-finite
    entries. *)
Definition unnormalize_action (e : Environment X) (action : list xnum)
  : list xnum :=
  map2 xscale (snd (norm e)) action.

(** [Environment.linearize_discretize] *)
Definition linearize_discretize (e : Environment X)
  (x_center u_center : option vec) (normalize : bool)
  : result (mat * mat) :=
  match x_center with
  | Some _ =>
      raise (NotImplementedError
               "For now we only allow linearization at the origin!")
  | None =>
      match u_center with
      | Some _ =>
          raise (NotImplementedError
                   "For now we only allow linearization at the origin!")
      | None =>
          let jac_ct := _jac_dynamics e in
          let A_ct := cols_before (n_s e) jac_ct in
          let B_ct := cols_from (n_s e) jac_ct in
          let m_x := diag (fst (norm e)) in
          let m_u := diag (snd (norm e)) in
          let m_x_inv := diag (fst (inv_norm e)) in
          let A_ct' := if normalize then multi_dot3 m_x_inv A_ct m_x
                       else A_ct in
          let B_ct' := if normalize then multi_dot3 m_x_inv B_ct m_u
                       else B_ct in
          let ct_input :=
            (A_ct', B_ct', eye (n_s e), zeros (n_s e) (n_u e)) in
          let '(A, B, _, _, _) := cont2discrete ct_input (dt e) in
          ret (A, B)
      end
  end.

(** [Environment.step].  The object is updated in place, so the updated
    object is returned next to the outcome also when the call raises.
    [noise] is the sample drawn by [state_to_obs(..., add_noise=True)].
    The [print] calls under [verbosity > 0] are left out. *)
Definition step (e : Environment X) (action : list xnum) (noise : vec)
  : Environment X * result (vec * vec * vec * bool * Z) :=
  let action := unnormalize_action e action in
  let action_clipped := clip (nan_to_num action) (u_min e) (u_max e) in
  let o := set_f_params (odesolver e) action in
  let '(o', y) := integrate o (ode_t o + dt e) in
  let e1 := with_solver_and_state e o' y in
  let '(done, result_code, e2) := _check_current_state e1 in
  let new_state_noise_obs :=
    state_to_obs e2 (current_state e2) (Some noise) in
  let new_state_obs := state_to_obs e2 (current_state e2) None in
  if successful (odesolver e2) then
    let action_clipped_normalized :=
      vmul (snd (inv_norm e2)) action_clipped in
    (e2, ret (action_clipped_normalized, new_state_obs,
              new_state_noise_obs, done, result_code))
  else (e2, raise (ValueError "Odesolver failed!")).

End Base.

End Env.

(** *** [class InvertedPendulum(Environment)] *)

Module InvertedPendulum.
Import NP Env.

Record Attrs : Type := mkAttrs {
  l : Q;
  m : Q;
  g : Q;
  b : Q;
  _enable_objectives : bool;
  _objective_thetas : list Q;
  _current_objective_index : nat;
  _objective_tolerance : Q;
  _current_achieved_objective_states : list vec;
  _achieved_objectives : list Q;
  corners_polygon : mat
}.

Definition env : Type := Environment Attrs.

(** Property [_current_objective]. *)
Definition _current_objective (a : Attrs) : Q :=
  let index :=
    (_current_objective_index a mod length (_objective_thetas a))%nat in
  nth index (_objective_thetas a) 0.

Definition with_objective_index (a : Attrs) (i : nat) : Attrs :=
  mkAttrs (l a) (m a) (g a) (b a) (_enable_objectives a)
          (_objective_thetas a) i (_objective_tolerance a)
          (_current_achieved_objective_states a) (_achieved_objectives a)
          (corners_polygon a).

(** The update made when the objective is reached: the index is advanced
    first, so the objective appended is the next one. *)
Definition advance_objective (a : Attrs) (state : vec) : Attrs :=
  let a1 := with_objective_index a (S (_current_objective_index a)) in
  mkAttrs (l a1) (m a1) (g a1) (b a1) (_enable_objectives a1)
          (_objective_thetas a1) (_current_objective_index a1)
          (_objective_tolerance a1)
          (_current_achieved_objective_states a1 ++ [state])
          (_achieved_objectives a1 ++ [_current_objective a1])
          (corners_polygon a1).

(** [InvertedPendulum._reset] *)
Definition _reset (e : env) : env :=
  let e1 :=
    with_odesolver e (set_initial_value (odesolver e) (current_state e) 0) in
  let a := ext e1 in
  with_ext e1
    (mkAttrs (l a) (m a) (g a) (b a) (_enable_objectives a)
             (_objective_thetas a) (_current_objective_index a)
             (_objective_tolerance a) [] (_achieved_objectives a)
             (corners_polygon a)).

(** [InvertedPendulum._check_current_state] *)
Definition _check_current_state (e : env) : bool * Z * env :=
  let state := current_state e in
  let e' :=
    if Qle_bool (Qabs (nth 1 state 0 - _current_objective (ext e)))
                (_objective_tolerance (ext e))
    then with_ext e (advance_objective (ext e) state)
    else e in
  let res :=
    vsub_broadcast_rows (matvec (h_mat_safe e') state)
                        (transpose (h_safe e')) in
  let satisfied := negb (any_gt0 res) in
  let status_code := 0%Z in
  (negb satisfied, status_code, e').

(** [InvertedPendulum.state_to_obs] *)
Definition state_to_obs (e : env) (state : vec) (noise : option vec) : vec :=
  let state_noise :=
    match noise with
    | None => map (fun x => x + 0) state
    | Some n => vadd state n
    end in
  vmul state_noise (fst (inv_norm e)).

(** [InvertedPendulum._jac_dynamics]; the linearisation point is the zero
    state, where [np.cos] is one.  The mass and the length are taken to
    be nonzero: at zero the source raises [ZeroDivisionError], where the
    division of [Q] gives zero. *)
Definition _jac_dynamics (e : env) : mat :=
  let inertia := m (ext e) * (l (ext e) * l (ext e)) in
  let jac_0 := [[b (ext e) / inertia; g (ext e) / l (ext e) * 1;
                 1 / inertia]] in
  let jac_1 := [[1; 0; 0]] in
  vstack jac_0 jac_1.

#[export] Instance methods : Methods Attrs := {
  Env._reset := _reset;
  Env._check_current_state := _check_current_state;
  Env.state_to_obs := state_to_obs;
  Env._jac_dynamics := _jac_dynamics
}.

#[export] Instance plotting : Plotting Attrs := {
  has_plot_methods := true
}.

(** [InvertedPendulum.random_action]; [r] is the sample of
    [np.random.rand(n_u)], uniform in [[0, 1)]. *)
Definition random_action (e : env) (r : vec) : vec :=
  let c := 0.5 in
  map (Qmult c)
      (vadd (vmul r (vsub (u_max_norm e) (u_min_norm e))) (u_min_norm e)).

(** [InvertedPendulum.get_safety_constraints]; the object is returned
    next to the result to record that no attribute is assigned. *)
Definition get_safety_constraints (e : env) (normalize : bool)
  : env * (mat * mat * option mat * option mat) :=
  let h_mat_safe' :=
    if normalize then
      let m_x := diag (fst (norm e)) in
      matmul (h_mat_safe e) m_x
    else h_mat_safe e in
  (e, (h_mat_safe', h_safe e, h_mat_obs e, h_obs e)).

Section Init.
Context `{Libraries}.

(** [_init_safety_constraints]: the four stored constraint fields and
    the corner points. *)
Definition _init_safety_constraints (n_s : nat) (simple_constraints : bool)
  : mat * mat * option mat * option mat * mat :=
  let max_deg := 20 in
  let max_dtheta := 1.2 in
  let max_dtheta_theta_0 := 0.8 in
  let max_rad := deg2rad max_deg in
  let corners_polygon :=
    if simple_constraints then
      [[- max_dtheta_theta_0; max_rad];
       [max_dtheta_theta_0; max_rad];
       [max_dtheta_theta_0; - max_rad];
       [- max_dtheta_theta_0; - max_rad]]
    else
      [[- max_dtheta; max_rad];
       [max_dtheta_theta_0; 0];
       [max_dtheta; - max_rad];
       [- max_dtheta_theta_0; 0]] in
  let eq := convex_hull_equations corners_polygon in
  let h_mat_safe := cols_before n_s eq in
  let h_safe := mneg (cols_from n_s eq) in
  (h_mat_safe, h_safe, None, None, corners_polygon).

(** [InvertedPendulum.__init__] *)
Definition init (l m g b dt : Q) (plant_noise u_min u_max : vec)
  (verbosity : Z) (norm_x norm_u : option vec)
  (simple_constraints enable_objectives : bool) : env :=
  let norm_x := match norm_x with None => [1; 1] | Some v => v end in
  let norm_u := match norm_u with None => [1] | Some v => v end in
  let '(h_mat_safe, h_safe, h_mat_obs, h_obs, corners) :=
    _init_safety_constraints 2 simple_constraints in
  mkEnv 2 1 dt false 0 u_min u_max plant_noise verbosity [0; 0] [] []
        (mkOde 0 [] [] true)
        (norm_x, norm_u) (vinv norm_x, vinv norm_u)
        h_mat_safe h_safe h_mat_obs h_obs
        (mkAttrs l m g b enable_objectives
                 [-0.1; -0.25; 0.05; -0.2; 0.28; 0.2] 0 0.01 [] []
                 corners).

End Init.

End InvertedPendulum.

(** *** [class CartPole(Environment)] *)

Module CartPole.
Import NP Env.

Record Attrs : Type := mkAttrs {
  l : Q;
  m : Q;
  M : Q;
  b : Q;
  g : Q;
  lim_x : Q * Q;
  max_rad_theta : Q;
  corners_polygon : mat
}.

Definition env : Type := Environment Attrs.

(** [CartPole._reset] *)
Definition _reset (e : env) : env :=
  with_odesolver e (set_initial_value (odesolver e) (current_state e) 0).

(** [CartPole._check_current_state(state=None)] *)
Definition _check_current_state_of (e : env) (state : option vec)
  : bool * Z :=
  let status_code := (-1)%Z in
  let state := match state with None => current_state e | Some s => s end in
  let sat := true in
  let x0 := nth 0 state 0 in
  let x2 := nth 2 state 0 in
  let '(sat, status_code) :=
    if negb (Qle_bool x0 (snd (lim_x (ext e))))
       || negb (Qle_bool (fst (lim_x (ext e))) x0)
    then (false, 1%Z) else (sat, status_code) in
  let '(sat, status_code) :=
    if negb (Qle_bool (- max_rad_theta (ext e)) x2)
       || negb (Qle_bool x2 (max_rad_theta (ext e)))
    then (false, 2%Z) else (sat, status_code) in
  (negb sat, status_code).

Definition _check_current_state (e : env) : bool * Z * env :=
  (_check_current_state_of e None, e).

(** [CartPole.state_to_obs] *)
Definition state_to_obs (e : env) (state : vec) (noise : option vec) : vec :=
  let obs :=
    match noise with
    | None => map (fun x => x + 0) state
    | Some n => vadd state n
    end in
  vmul obs (fst (inv_norm e)).

(** [CartPole._jac_dynamics].  The masses and the length are taken to be
    nonzero: at zero the source raises [ZeroDivisionError], where the
    division of [Q] gives zero. *)
Definition _jac_dynamics (e : env) : mat :=
  let m := m (ext e) in
  let M := M (ext e) in
  let l := l (ext e) in
  let b := b (ext e) in
  let g := g (ext e) in
  let A := [[0; 1; 0; 0];
            [0; 0; 0.5 * g * m / M; - b * 0.5 / (M * l)];
            [0; 0; 0; 1];
            [0; 0; g * (m + M) / (l * M);
             - b * (m + M) / (m * M * (l * l))]] in
  let B := [[0]; [1 / M]; [0]; [1 / (M * l)]] in
  hstack A B.

#[export] Instance methods : Methods Attrs := {
  Env._reset := _reset;
  Env._check_current_state := _check_current_state;
  Env.state_to_obs := state_to_obs;
  Env._jac_dynamics := _jac_dynamics
}.

#[export] Instance plotting : Plotting Attrs := {
  has_plot_methods := false
}.

(** [CartPole.random_action]; [r] is the sample of
    [np.random.rand(n_u)], uniform in [[0, 1)]. *)
Definition random_action (e : env) (r : vec) : vec :=
  vadd (vmul r (vsub (u_max_norm e) (u_min_norm e))) (u_min_norm e).

(** [CartPole.get_safety_constraints] *)
Definition get_safety_constraints (e : env) (normalize : bool)
  : env * (mat * mat * option mat * option mat) :=
  let h_mat_safe0 := h_mat_safe e in
  let h_mat_obs0 := h_mat_obs e in
  let '(h_mat_safe', h_mat_obs') :=
    if normalize then
      let m_x := diag (fst (norm e)) in
      (matmul h_mat_safe0 m_x,
       match h_mat_obs e with
       | Some Hobs => Some (matmul Hobs m_x)
       | None => h_mat_obs0
       end)
    else (h_mat_safe0, h_mat_obs0) in
  (e, (h_mat_safe', h_safe e, h_mat_obs', h_obs e)).

Section Init.
Context `{Libraries}.

(** [CartPole._init_safety_constraints]: the stored constraint fields,
    [lim_x], [max_rad_theta] and the corner points.  The obstacle
    polytope is stacked from [h_0], [h_1], [h_2], [h_3], where [h_1] is
    still the row defined for the safe polytope. *)
Definition _init_safety_constraints
  : mat * mat * option mat * option mat * (Q * Q) * Q * mat :=
  let max_deg := 25 in
  let max_dtheta := 1.2 in
  let max_dx := 1.66 in
  let lim_x_safe := (-4, 2.6) in
  let max_rad := deg2rad max_deg in
  let h_0_mat := [[0; 0; 7.25; 1]] in
  let h_0_vec := [[1]] in
  let h_1_mat := mneg h_0_mat in
  let h_1_vec := h_0_vec in
  let h_2_mat := [[0; 0; -1.25; -1]] in
  let h_2_vec := [[1]] in
  let h_3_mat := mneg h_2_mat in
  let h_3_vec := h_2_vec in
  let h_4_mat := [[0; 1; 0; 0]] in
  let h_4_vec := [[max_dx]] in
  let h_5_mat := mneg h_4_mat in
  let h_5_vec := h_4_vec in
  let h_6_mat := [[1; 0; 0; 0]; [-1; 0; 0; 0]] in
  let h_6_vec := [[snd lim_x_safe]; [- fst lim_x_safe]] in
  let h_7_mat := [[1; 2; 0; 0]] in
  let h_7_vec := [[3]] in
  let h_mat_safe :=
    h_0_mat ++ h_1_mat ++ h_2_mat ++ h_3_mat ++ h_4_mat ++ h_5_mat
            ++ h_6_mat ++ h_7_mat in
  let h_safe :=
    h_0_vec ++ h_1_vec ++ h_2_vec ++ h_3_vec ++ h_4_vec ++ h_5_vec
            ++ h_6_vec ++ h_7_vec in
  let lim_x_obs := (-10, 3) in
  let max_theta_obs := deg2rad 90 in
  let o_0_mat := [[1; 0; 0; 0]; [-1; 0; 0; 0]] in
  let o_0_vec := [[snd lim_x_obs]; [- fst lim_x_obs]] in
  let o_2_mat := [[0; 0; 1; 0]] in
  let o_2_vec := [[max_theta_obs]] in
  let o_3_mat := mneg o_2_mat in
  let o_3_vec := o_2_vec in
  let h_mat_obs := o_0_mat ++ h_1_mat ++ o_2_mat ++ o_3_mat in
  let h_obs := o_0_vec ++ h_1_vec ++ o_2_vec ++ o_3_vec in
  let corners :=
    [[- max_dtheta; max_rad]; [max_dtheta; 0]; [max_dtheta; - max_rad];
     [- max_dtheta; 0]; [- max_dtheta; max_rad]] in
  (h_mat_safe, h_safe, Some h_mat_obs, Some h_obs, (-10, 3),
   max_theta_obs, corners).

(** [CartPole.__init__] *)
Definition init (dt l m M b g : Q) (u_min u_max : vec)
  (norm_x norm_u : option vec) (plant_noise : vec) (verbosity : Z)
  : env :=
  let norm_x :=
    match norm_x with
    | None => [3; 5; deg2rad 30; 2 * np_sqrt (g / l)]
    | Some v => v
    end in
  let norm_u :=
    match norm_u with None => vsub u_max u_min | Some v => v end in
  let '(h_mat_safe, h_safe, h_mat_obs, h_obs, lim_x, max_rad_theta,
        corners) := _init_safety_constraints in
  mkEnv 4 1 dt false 0 u_min u_max plant_noise verbosity [0; 0; 0; 0]
        [] [] (mkOde 0 [] [] true)
        (norm_x, norm_u) (vinv norm_x, vinv norm_u)
        h_mat_safe h_safe h_mat_obs h_obs
        (mkAttrs l m M b g lim_x max_rad_theta corners).

End Init.

End CartPole.

(** ** [episode_runner.py] *)

Module EpisodeRunner.
Import NP Env.

(** Modelled from the spec: the enumeration [MpcResult] is declared in
    [safempc_cem], which is not part of the sources at hand.  Its three
    members are the ones the rollout loop names, and the data model of the
    specification lists exactly these three outcomes. *)
Inductive MpcResult : Type :=
| FOUND_SOLUTION
| PREVIOUS_SOLUTION
| SAFE_CONTROLLER.

Definition MpcResult_eqb (a b : MpcResult) : bool :=
  match a, b with
  | FOUND_SOLUTION, FOUND_SOLUTION
  | PREVIOUS_SOLUTION, PREVIOUS_SOLUTION
  | SAFE_CONTROLLER, SAFE_CONTROLLER => true
  | _, _ => false
  end.

(** [1 if mpc_result in (FOUND_SOLUTION, PREVIOUS_SOLUTION) else 0] *)
Definition exit_code_of (mpc_result : MpcResult) : Z :=
  if existsb (MpcResult_eqb mpc_result) [FOUND_SOLUTION; PREVIOUS_SOLUTION]
  then 1%Z else 0%Z.

(** The decision layer as the rollout loop sees it: [get_action] takes the
    current state and gives an action and an [MpcResult]; the solver
    object may change. *)
Class Solver (Sv : Type) : Type := {
  get_action : Sv -> vec -> list xnum * MpcResult * Sv
}.

(** The local variables of [do_rollout] that the loop updates. *)
Record Locals : Type := mkLocals {
  state : vec;
  xx : mat;
  yy : mat;
  exit_codes : list Z;
  cc : list Q;
  n_successful : nat;
  mpc_results : list MpcResult;
  env_result : Z;
  safety_failure : bool
}.

(** What one pass of the loop draws from the random generator: the action
    of [env.random_action()] (used when there is no solver) and the
    observation noise of [env.step]. *)
Record Draw : Type := mkDraw {
  random_action : list xnum;
  obs_noise : vec
}.

Section Rollout.
Context {X Sv : Type} `{Libraries} `{Methods X} `{Solver Sv}.

(** The body of [for i in range(n_steps)], run for the steps whose draws
    are listed.  Drawing on the figure (reached only when the object has
    the plotting methods, see [do_rollout]), printing and timing are left
    out, and so are the branches under [render], [sampling_verification],
    [check_system_safety] and [relative_dynamics], which are false in
    every call of the module. *)
Fixpoint rollout_loop (draws : list Draw) (cost : option (vec -> Q))
  (env : Environment X) (solver : option Sv) (v : Locals)
  : Environment X * option Sv * result Locals :=
  match draws with
  | [] => (env, solver, ret v)
  | d :: draws' =>
      let '(action, exit_code, solver', mpc_results') :=
        match solver with
        | None => (random_action d, 5%Z, None, mpc_results v)
        | Some s =>
            let '(action, mpc_result, s') := get_action s (state v) in
            (action, exit_code_of mpc_result, Some s',
             mpc_results v ++ [mpc_result])
        end in
      let '(env', r) := step env action (obs_noise d) in
      match r with
      | inl e => (env', solver', raise e)
      | inr (action, next_state, observation, done, env_result') =>
          let cc' :=
            match cost with
            | Some c => cc v ++ [c next_state]
            | None => cc v
            end in
          let state_action := state v ++ action in
          let v' :=
            mkLocals next_state
                     (xx v ++ [state_action])
                     (yy v ++ [observation])
                     (exit_codes v ++ [exit_code])
                     cc'
                     (S (n_successful v))
                     mpc_results'
                     env_result'
                     (safety_failure v) in
          if done then
            (env', solver',
             ret (mkLocals (state v') (xx v') (yy v') (exit_codes v')
                           (cc v') (n_successful v') (mpc_results v')
                           (env_result v') true))
          else rollout_loop draws' cost env' solver' v'
      end
  end.

(** [a[::k]] on the rows of a 2-D array for the positive step [k = S k']:
    the rows at the indices 0, [k], [2k], ...; [skip] counts the rows
    still to pass over before the next one is taken. *)
Fixpoint every (k' : nat) (skip : nat) (rows : mat) : mat :=
  match rows with
  | [] => []
  | r :: rows' =>
      match skip with
      | O => r :: every k' k' rows'
      | S skip' => every k' skip' rows'
      end
  end.

(** [a[1:-1:k, :]]; numpy refuses a step of zero. *)
Definition slice_1_m1 (k : nat) (rows : mat) : result mat :=
  match k with
  | O => raise (ValueError "slice step cannot be zero")
  | S k' => ret (every k' 0 (removelast (tl rows)))
  end.

(** [do_rollout]: [start] is the start state drawn by [env.reset].  With
    [plot_trajectory] the figure is set up by [env.plot_safety_bounds()],
    an attribute only some environments have.  The arrays start with one
    row of zeros, dropped again at the end.  The mean time in the solver
    is computed by a division by [n_successful].  The arguments [render],
    [sampling_verification], [check_system_safety], [plot_ellipsoids],
    [plot_episode_trajectory] and [relative_dynamics] are false. *)
Definition do_rollout `{Plotting X} (env : Environment X) (start : vec)
  (draws : list Draw) (solver : option Sv) (cost : option (vec -> Q))
  (obs_frequency : nat) (plot_trajectory : bool)
  : Environment X * option Sv
    * result (mat * mat * list Q * list Z * bool) :=
  let '(env0, state0) := reset env start in
  if plot_trajectory && negb has_plot_methods then
    (env0, solver, raise (AttributeError "plot_safety_bounds"))
  else
    let v0 :=
      mkLocals state0 [repeat 0 (n_s env0 + n_u env0)] [repeat 0 (n_s env0)]
               [0%Z] [] 0 [] (-1)%Z false in
    let '(env', solver', r) := rollout_loop draws cost env0 solver v0 in
    match r with
    | inl e => (env', solver', raise e)
    | inr v =>
        if Nat.eqb (n_successful v) 0 then
          (env', solver', raise ZeroDivisionError)
        else
          match slice_1_m1 obs_frequency (xx v),
                slice_1_m1 obs_frequency (yy v) with
          | inr xs, inr ys =>
              (env', solver',
               ret (xs, ys, cc v, tl (exit_codes v), safety_failure v))
          | inl e, _ | _, inl e => (env', solver', raise e)
          end
    end.

(** One step of a rollout as seen from outside: the state the step starts
    from, the solver object as it is when the step starts (none without a
    solver), the result [get_action] gives (none without a solver), and
    what [env.step] returns for the action chosen. *)
Record StepRecord : Type := mkStepRecord {
  at_state : vec;
  solver_before : option Sv;
  decision : option MpcResult;
  returned_action : vec;
  next_state : vec;
  observation : vec;
  done : bool
}.

(** The steps a rollout makes, in order, from the given environment,
    solver and state: each step asks [get_action] at the current state
    (or takes the random action), passes the action to [env.step] and
    goes on from the next state; the steps end with the draws, with the
    first step that is done, or before a step in which [env.step]
    raises. *)
Fixpoint rollout_steps (draws : list Draw) (env : Environment X)
  (solver : option Sv) (current : vec) : list StepRecord :=
  match draws with
  | [] => []
  | d :: draws' =>
      let '(action, decided, solver') :=
        match solver with
        | None => (random_action d, None, None)
        | Some s =>
            let '(action, mpc_result, s') := get_action s current in
            (action, Some mpc_result, Some s')
        end in
      match step env action (obs_noise d) with
      | (_, inl _) => []
      | (env', inr (action', next, obs, finished, _)) =>
          mkStepRecord current solver decided action' next obs finished
            :: (if finished then []
                else rollout_steps draws' env' solver' next)
      end
  end.

(** The exit code of a step: the code of the decision, 5 without a
    solver. *)
Definition exit_code_of_step (r : StepRecord) : Z :=
  match decision r with
  | Some mpc_result => exit_code_of mpc_result
  | None => 5%Z
  end.

End Rollout.

End EpisodeRunner.

(** ** The reachability core, as the specification describes it

    The modules [gp_reachability], [gp_reachability_casadi] and the safe-MPC
    solver are not among the sources at hand; the definitions of this part
    follow the text of the specification.  The support function of an
    ellipsoid needs a square root, so this part works over the real
    numbers. *)

Module Core.
Local Open Scope R_scope.

Definition rvec := list R.
Definition rmat := list (list R).

Fixpoint rdot (x y : rvec) : R :=
  match x, y with
  | a :: x', b :: y' => a * b + rdot x' y'
  | _, _ => 0
  end.

Definition rmatvec (M : rmat) (x : rvec) : rvec :=
  map (fun row => rdot row x) M.

(** [H_i * Q * H_i^T] for a row [H_i]. *)
Definition quad_form (Hi : rvec) (Qm : rmat) : R := rdot Hi (rmatvec Qm Hi).

(** Data model, section 3 of the specification. *)
Record Ellipsoid : Type := mkEllipsoid {
  center : rvec;
  shape : rmat
}.

Record ControlLaw : Type := mkControlLaw {
  k_fb : rmat;
  k_ff : rvec
}.

Definition Trajectory : Type := list (Ellipsoid * ControlLaw).

Record SafetyConstraintSet : Type := mkConstraints {
  H_safe : rmat;
  h_safe : rvec;
  obstacle : option (rmat * rvec)
}.

(** *** Safety certificate checker (section 4.3) *)

(** The support-function bound of the ellipsoid along [H_i], scaled by the
    safety factor. *)
Definition support_bound (c_safety : R) (e : Ellipsoid) (Hi : rvec) : R :=
  rdot Hi (center e) + c_safety * sqrt (quad_form Hi (shape e)).

(** Modelled from the spec: the check of one ellipsoid against one
    constraint row [(H_i, h_i)] (the checker is part of the solver module,
    which is missing): [H_i.p + c_safety * sqrt(H_i Q H_i^T) <= h_i]. *)
Definition row_holds (c_safety : R) (e : Ellipsoid) (row : rvec * R)
  : bool :=
  if Rle_dec (support_bound c_safety e (fst row)) (snd row)
  then true else false.

(** Modelled from the spec: the verdicts of the missing checker, one for
    every ellipsoid of the trajectory and every row of a polytope
    [H x <= h]. *)
Definition verdicts (c_safety : R) (traj : Trajectory) (Hm : rmat)
  (h : rvec) : list (list bool) :=
  map (fun step => map (row_holds c_safety (fst step)) (combine Hm h)) traj.

(** Modelled from the spec: the missing checker certifies the trajectory
    when the bound holds for every row and every step. *)
Definition certified (c_safety : R) (traj : Trajectory) (Hm : rmat)
  (h : rvec) : bool :=
  forallb (forallb (fun b => b)) (verdicts c_safety traj Hm h).

(** Modelled from the spec: the diagnostic output of the missing checker,
    the first violating (step, row), if any. *)
Fixpoint first_false (bs : list bool) (i : nat) : option nat :=
  match bs with
  | [] => None
  | b :: bs' => if b then first_false bs' (S i) else Some i
  end.

Fixpoint first_violation_from (vs : list (list bool)) (i : nat)
  : option (nat * nat) :=
  match vs with
  | [] => None
  | v :: vs' =>
      match first_false v 0 with
      | Some j => Some (i, j)
      | None => first_violation_from vs' (S i)
      end
  end.

Definition first_violation (c_safety : R) (traj : Trajectory) (Hm : rmat)
  (h : rvec) : option (nat * nat) :=
  first_violation_from (verdicts c_safety traj Hm h) 0.

(** Modelled from the spec: the check of the missing checker against the
    safe set of a [SafetyConstraintSet], and the separate pass against
    the obstacle set, evaluated in the same way when the set is
    present. *)
Definition certified_safe (c_safety : R) (traj : Trajectory)
  (cs : SafetyConstraintSet) : bool :=
  certified c_safety traj (H_safe cs) (h_safe cs).

Definition certified_obstacle (c_safety : R) (traj : Trajectory)
  (cs : SafetyConstraintSet) : option bool :=
  option_map (fun o => certified c_safety traj (fst o) (snd o))
             (obstacle cs).

(** *** Multi-step reachability engine (section 4.2) *)

Section MultiStep.
(** The one-step propagator of section 4.1 for a fixed GP model, fixed
    Lipschitz bounds, safety factor and affine local model. *)
Variable onestep : Ellipsoid -> ControlLaw -> Ellipsoid.

(** The feedback law of a step: the initial gain, if supplied, plus the
    additive correction of the step. *)
Definition madd (A B : rmat) : rmat :=
  map (fun rows => map (fun ab => fst ab + snd ab)
                       (combine (fst rows) (snd rows)))
      (combine A B).

Definition step_law (k_fb_init : option rmat) (corr : ControlLaw)
  : ControlLaw :=
  match k_fb_init with
  | Some K => mkControlLaw (madd K (k_fb corr)) (k_ff corr)
  | None => corr
  end.

(** Modelled from the spec: the loop of the missing multi-step engine.
    It carries the last ellipsoid and the trajectory produced so far;
    every pass applies the one-step propagator to the last ellipsoid
    and appends the result with the law that produced it. *)
Fixpoint multistep_loop (k_fb_init : option rmat) (laws : list ControlLaw)
  (last : Ellipsoid) (acc : Trajectory) : Trajectory :=
  match laws with
  | [] => acc
  | corr :: laws' =>
      let law := step_law k_fb_init corr in
      let next := onestep last law in
      multistep_loop k_fb_init laws' next (acc ++ [(next, law)])
  end.

(** Modelled from the spec: the missing multi-step engine.  The first
    step starts from the initial ellipsoid and applies the initial
    control [u_0] as feedforward, with the gain [k_fb_0] (with a point as
    initial ellipsoid the gain has nothing to act on); the following
    [T - 1] steps use the given corrections and feedforward terms. *)
Definition multistep_reachability (e0 : Ellipsoid) (u_0 : rvec)
  (k_fb_0 : rmat) (k_fb_init : option rmat) (laws : list ControlLaw)
  : Trajectory :=
  let law0 := mkControlLaw k_fb_0 u_0 in
  let e1 := onestep e0 law0 in
  multistep_loop k_fb_init laws e1 [(e1, law0)].

(** Chaining the one-step propagator by hand: the ellipsoid reached
    after applying the listed laws one after the other, each call
    starting from the output of the call before. *)
Fixpoint chain (e : Ellipsoid) (laws : list ControlLaw) : Ellipsoid :=
  match laws with
  | [] => e
  | law :: laws' => chain (onestep e law) laws'
  end.

(** The trajectory obtained by hand from [e] under the laws [ls]: the
    [i]-th ellipsoid is reached by chaining the first [i + 1] calls. *)
Definition by_hand (e : Ellipsoid) (ls : list ControlLaw) : Trajectory :=
  combine (map (fun i => chain e (firstn (S i) ls)) (seq 0 (length ls)))
          ls.

(** The laws applied by hand in the first [i + 1] steps. *)
Definition manual_laws (u_0 : rvec) (k_fb_0 : rmat)
  (k_fb_init : option rmat) (laws : list ControlLaw) (i : nat)
  : list ControlLaw :=
  firstn (S i)
         (mkControlLaw k_fb_0 u_0 :: map (step_law k_fb_init) laws).

End MultiStep.

End Core.

(** ** [test/test_gp_reachability_pytorch.py]: the comparison of the tests *)

Module ReachabilityTest.
Import NP.

Definition a_tol : Q := 1 # 100000.
Definition r_tol : Q := 1 # 10000.

(** [np.isclose(a, b, rtol, atol)] on finite values:
    [|a - b| <= atol + rtol * |b|]. *)
Definition isclose (rtol atol a b : Q) : bool :=
  Qle_bool (Qabs (a - b)) (atol + rtol * Qabs b).

(** [np.allclose(a, b, rtol, atol)] on two arrays of the same shape. *)
Definition allclose (rtol atol : Q) (a b : vec) : bool :=
  forallb (fun x => x) (map2 (isclose rtol atol) a b).

End ReachabilityTest.

(** ** Concrete inputs used to exercise the definitions *)

Module Examples.
Import NP Env.

(** The safe box [|x_0| <= 0.8], [|x_1| <= 0.35] of the pendulum in
    halfspace form. *)
Definition box_H : mat := [[1; 0]; [-1; 0]; [0; 1]; [0; -1]].
Definition box_h : mat := [[0.8]; [0.8]; [0.35]; [0.35]].

(** A pendulum object in state [s] with the given bounds on the action,
    normalisation factors and solver object. *)
Definition pendulum (s : vec) (lo hi : vec) (nx nu : vec) (o : Ode)
  : InvertedPendulum.env :=
  mkEnv 2 1 0.05 true 0 lo hi [0.0001; 0.0001] 0 [0; 0] [s] s o
        (nx, nu) (vinv nx, vinv nu) box_H box_h None None
        (InvertedPendulum.mkAttrs 0.5 0.15 9.82 0 false
           [-0.1; -0.25; 0.05; -0.2; 0.28; 0.2] 0 0.01 [] [] []).

Definition pendulum_unsafe : InvertedPendulum.env :=
  pendulum [1; 0] [-1] [1] [1; 1] [1] (mkOde 0 [1; 0] [] true).

(** Stand-ins for the library routines: an integrator that holds the
    state and reports the given flag, a discretisation that returns its
    input, the hull equations of the safe box, and rational stand-ins for
    the two real functions. *)
Definition stub_libraries (ok : bool) : Libraries := {|
  ode_run := fun _ y _ t1 => (y, t1, ok);
  cont2discrete := fun sys dt0 =>
    let '(A, B, C, D) := sys in (A, B, C, D, dt0);
  convex_hull_equations := fun _ =>
    [[1; 0; -0.8]; [-1; 0; -0.8]; [0; 1; -0.35]; [0; -1; -0.35]];
  deg2rad := fun d => d * (355 / 113) / 180;
  np_sqrt := fun x => x
|}.

Definition cartpole : CartPole.env :=
  @CartPole.init (stub_libraries true) 0.1 0.5 0.5 0.5 0.1 9.82 [-4] [4]
                 None None [0.0004; 0.0025; 0.0004; 0.0025] 1.

Definition pendulum_safe : InvertedPendulum.env :=
  pendulum [0; 0] [-1] [1] [1; 1] [1] (mkOde 0 [0; 0] [] true).

(** A decision layer that counts its calls: it finds a solution on the
    first call, reuses it on the second, and falls back afterwards. *)
Definition counting_solver : EpisodeRunner.Solver nat := {|
  EpisodeRunner.get_action := fun n _ =>
    ([Fin 0],
     match n with
     | 0%nat => EpisodeRunner.FOUND_SOLUTION
     | 1%nat => EpisodeRunner.PREVIOUS_SOLUTION
     | _ => EpisodeRunner.SAFE_CONTROLLER
     end,
     S n)
|}.

Definition three_draws : list EpisodeRunner.Draw :=
  repeat (EpisodeRunner.mkDraw [Fin 0] [0; 0]) 3.

End Examples.

(** ** Statements about [Environment.step] *)

Module Contracts.
Import NP Env.

(** A finite value different from a possibly non-finite one. *)
Definition xneq (x : xnum) (c : Q) : Prop :=
  match x with
  | Fin q => ~ q == c
  | PInf | NInf | NaN => True
  end.

Section Step.
Context {X : Type} `{Libraries} `{Methods X}.

(** The subclass check leaves the solver object, the state and the
    normalisation factors of the base class alone. *)
Definition check_keeps_base : Prop :=
  forall e : Environment X,
    let e' := snd (_check_current_state e) in
    odesolver e' = odesolver e /\ current_state e' = current_state e
    /\ inv_norm e' = inv_norm e.

(** The outcome of one call of [step]: the integrator runs once, on the
    unnormalised action; when it reports failure the call raises
    [ValueError], when it reports success the call returns the clipped
    normalised action, the next observation, the noisy observation,
    the done flag and the result code of the subclass check. *)
Definition step_outcome (e : Environment X) (action : list xnum)
  (noise : vec) : Prop :=
  let applied := unnormalize_action e action in
  let o := odesolver e in
  let '(y, t', ok) :=
    ode_run applied (ode_y o) (ode_t o) (ode_t o + dt e) in
  let e1 := with_solver_and_state e (mkOde t' y applied ok) y in
  let '(done, result_code, _) := _check_current_state e1 in
  let '(e', r) := step e action noise in
  odesolver e' = mkOde t' y applied ok
  /\ current_state e' = y
  /\ if ok then
       r = ret (vmul (snd (inv_norm e))
                     (clip (nan_to_num applied) (u_min e) (u_max e)),
                state_to_obs e' y None,
                state_to_obs e' y (Some noise),
                done, result_code)
     else r = raise (ValueError "Odesolver failed!").

(** The action returned by [step] against the action applied to the
    system. *)
Definition step_actions (e : Environment X) (action : list xnum)
  (noise : vec) : Prop :=
  let applied := unnormalize_action e action in
  let clipped := clip (nan_to_num applied) (u_min e) (u_max e) in
  let '(e', r) := step e action noise in
  ode_f_params (odesolver e') = applied
  /\ (forall out, r = ret out ->
                  fst (fst (fst (fst out)))
                  = vmul (snd (inv_norm e)) clipped)
  /\ (forall i x lo hi,
         nth_error applied i = Some x ->
         nth_error (u_min e) i = Some lo ->
         nth_error (u_max e) i = Some hi ->
         lo <= hi ->
         xlt x lo \/ xgt x hi ->
         exists c, nth_error clipped i = Some c /\ xneq x c).

End Step.

End Contracts.

(** ** Further statements about the environments *)

Module Invariants.
Import NP Env.

Section Step.
Context {X : Type} `{Libraries} `{Methods X}.

(** The subclass check changes nothing but the attributes of the
    subclass. *)
Definition check_only_ext : Prop :=
  forall e : Environment X,
    snd (_check_current_state e)
    = with_ext e (ext (snd (_check_current_state e))).

(** What one call of [step] does to the object, whether it returns or
    raises: one more iteration, the new state appended to the trajectory of
    the episode, and the dimensions, time step, action bounds,
    normalisation factors and constraint arrays left as they were. *)
Definition step_bookkeeping (e : Environment X) (action : list xnum)
  (noise : vec) : Prop :=
  let e' := fst (step e action noise) in
  iteration e' = S (iteration e)
  /\ current_episode_trajectory e'
     = current_episode_trajectory e ++ [current_state e']
  /\ (n_s e', n_u e', dt e') = (n_s e, n_u e, dt e)
  /\ (u_min e', u_max e') = (u_min e, u_max e)
  /\ (norm e', inv_norm e') = (norm e, inv_norm e)
  /\ (h_mat_safe e', h_safe e', h_mat_obs e', h_obs e')
     = (h_mat_safe e, h_safe e, h_mat_obs e, h_obs e).

(** The clipped action behind the action that [step] returns: every
    component lies between its bounds when these are in order, and equals
    the applied component when that one is finite and within the
    bounds. *)
Definition step_action_in_bounds (e : Environment X) (action : list xnum)
  (noise : vec) : Prop :=
  let applied := unnormalize_action e action in
  forall out,
    snd (step e action noise) = ret out ->
    exists clipped,
      fst (fst (fst (fst out))) = vmul (snd (inv_norm e)) clipped
      /\ length clipped
         = Nat.min (length applied)
                   (Nat.min (length (u_min e)) (length (u_max e)))
      /\ forall i c x lo hi,
          nth_error clipped i = Some c ->
          nth_error applied i = Some x ->
          nth_error (u_min e) i = Some lo ->
          nth_error (u_max e) i = Some hi ->
          lo <= hi ->
          (lo <= c /\ c <= hi)
          /\ (forall q, x = Fin q -> lo <= q -> q <= hi -> c == q).

(** [reset] followed by a first [step]: the reset marks the object as
    initialised, restarts the iteration count and the trajectory of the
    episode at the start state and returns the normalised start state; the
    step that follows integrates from the start state, from time 0 to
    [dt]. *)
Definition reset_then_step (e : Environment X) (start : vec)
  (action : list xnum) (noise : vec) : Prop :=
  let '(e1, obs) := reset e start in
  is_initialized e1 = true
  /\ iteration e1 = 0%nat
  /\ current_episode_trajectory e1 = [start]
  /\ current_state e1 = start
  /\ Forall2 Qeq obs (vmul (fst (inv_norm e)) start)
  /\ let '(y, t', ok) :=
       ode_run (unnormalize_action e action) start 0 (0 + dt e) in
     odesolver (fst (step e1 action noise))
     = mkOde t' y (unnormalize_action e action) ok.

End Step.

End Invariants.

(** * Properties *)

Import NP Env Contracts Invariants.

(** Linear arithmetic over the rationals and over the reals. *)
Ltac lraQ := Lqa.lra.
Ltac lraR := Lra.lra.

(** ** Arrays *)

Lemma gt0_iff (q : Q) : gt0 q = true <-> 0 < q.
Proof.
  unfold gt0. rewrite negb_true_iff.
  split; intro Hq.
  - apply Qnot_le_lt. intro Hle. apply Qle_bool_iff in Hle. congruence.
  - destruct (Qle_bool q 0) eqn:E; [|reflexivity].
    apply Qle_bool_iff in E. exfalso. exact (Qlt_not_le _ _ Hq E).
Qed.

Lemma map2_nth_error {A B C : Type} (f : A -> B -> C) (xs : list A) :
  forall ys i x y,
    nth_error xs i = Some x -> nth_error ys i = Some y ->
    nth_error (map2 f xs ys) i = Some (f x y).
Proof.
  induction xs as [|a xs IH]; intros [|b ys] [|i] x y Hx Hy;
    simpl in *; try discriminate.
  - congruence.
  - eauto.
Qed.

(** Some entry of [a - b] is positive exactly when some [a_i] exceeds
    [b_i]. *)
Lemma existsb_gt0_vsub (a : vec) :
  forall b,
    existsb gt0 (vsub a b) = true <->
    exists i x y, nth_error a i = Some x /\ nth_error b i = Some y /\ y < x.
Proof.
  unfold vsub.
  induction a as [|x a IH]; intros [|y b]; simpl.
  - split; [discriminate|].
    intros (i & ? & ? & Hx & _). destruct i; discriminate.
  - split; [discriminate|].
    intros (i & ? & ? & Hx & _). destruct i; discriminate.
  - split; [discriminate|].
    intros (i & ? & ? & _ & Hy & _). destruct i; discriminate.
  - rewrite orb_true_iff, gt0_iff, IH. split.
    + intros [Hpos | (i & x' & y' & Hx & Hy & Hlt)].
      * exists 0%nat, x, y. repeat split; auto. lraQ.
      * exists (S i), x', y'. auto.
    + intros ([|i] & x' & y' & Hx & Hy & Hlt); simpl in *.
      * injection Hx as <-. injection Hy as <-. left. lraQ.
      * right. exists i, x', y'. auto.
Qed.

(** The transpose of a column (an array of shape [(m, 1)], [m] positive) is
    the single row of its entries. *)
Lemma transpose_column (M : mat) :
  M <> [] -> Forall (fun r => length r = 1%nat) M ->
  transpose M = [col 0 M].
Proof.
  intros Hne Hall. unfold transpose.
  destruct M as [|r M]; [congruence|].
  inversion Hall as [|? ? Hr _]; subst. simpl. rewrite Hr. reflexivity.
Qed.

Lemma matvec_nth_error (M : mat) (x : vec) (i : nat) :
  nth_error (matvec M x) i = option_map (fun row => dot row x) (nth_error M i).
Proof. unfold matvec. apply nth_error_map. Qed.

Lemma col_nth_error (M : mat) (j i : nat) :
  nth_error (col j M) i = option_map (fun row => nth j row 0) (nth_error M i).
Proof. unfold col. apply nth_error_map. Qed.

(** ** [InvertedPendulum._check_current_state] *)

(** The constraint fields and the state are the same before and after the
    objective bookkeeping. *)
Lemma pendulum_check_keeps_env (e : InvertedPendulum.env) :
  let e' := snd (InvertedPendulum._check_current_state e) in
  h_mat_safe e' = h_mat_safe e /\ h_safe e' = h_safe e
  /\ h_mat_obs e' = h_mat_obs e /\ h_obs e' = h_obs e
  /\ current_state e' = current_state e /\ odesolver e' = odesolver e
  /\ norm e' = norm e /\ inv_norm e' = inv_norm e
  /\ u_min e' = u_min e /\ u_max e' = u_max e.
Proof.
  unfold InvertedPendulum._check_current_state.
  destruct (Qle_bool _ _); simpl; repeat split; reflexivity.
Qed.

(** What the check computes: the verdict on the residual
    [H_safe x - h_safe^T], and the code 0. *)
Lemma pendulum_check_result (e : InvertedPendulum.env) :
  exists e',
    InvertedPendulum._check_current_state e =
    (any_gt0 (vsub_broadcast_rows (matvec (h_mat_safe e) (current_state e))
                                  (transpose (h_safe e))),
     0%Z, e').
Proof.
  unfold InvertedPendulum._check_current_state.
  match goal with |- context [if ?c then _ else _] => destruct c end;
    simpl; rewrite negb_involutive; eexists; reflexivity.
Qed.

(** C7: the pendulum reports the episode done exactly when some row of the
    stored safe polytope is violated by the current state,
    [H_safe_i . x > h_safe_i], and the status code is always 0.  The stored
    constraint arrays have the shapes [(m, n_s)] and [(m, 1)]. *)
Theorem C7_pendulum_done_iff_violation (e : InvertedPendulum.env) :
  length (h_safe e) = length (h_mat_safe e) ->
  Forall (fun r => length r = 1%nat) (h_safe e) ->
  let '(done, status_code, _) := InvertedPendulum._check_current_state e in
  status_code = 0%Z /\
  (done = true <->
   exists i H_i h_i,
     nth_error (h_mat_safe e) i = Some H_i /\
     nth_error (h_safe e) i = Some [h_i] /\
     h_i < dot H_i (current_state e)).
Proof.
  intros Hlen Hshape.
  destruct (pendulum_check_result e) as [e' ->].
  split; [reflexivity|].
  destruct (h_safe e) as [|r0 hs] eqn:Eh.
  - destruct (h_mat_safe e) as [|? ?]; [|discriminate].
    simpl. split; [discriminate|].
    intros (i & ? & ? & Hi & _). destruct i; discriminate.
  - rewrite transpose_column by (auto; discriminate).
    unfold vsub_broadcast_rows, any_gt0. cbn [existsb map].
    rewrite orb_false_r, existsb_gt0_vsub.
    split.
    + intros (i & x & y & Hx & Hy & Hlt).
      rewrite matvec_nth_error in Hx. rewrite col_nth_error in Hy.
      destruct (nth_error (h_mat_safe e) i) as [H_i|] eqn:EH; [|discriminate].
      destruct (nth_error (r0 :: hs) i) as [r|] eqn:Er; [|discriminate].
      simpl in Hx, Hy. injection Hx as <-. injection Hy as <-.
      assert (Hr : length r = 1%nat).
      { rewrite Forall_forall in Hshape. apply Hshape.
        eapply nth_error_In; eauto. }
      destruct r as [|h_i [|? ?]]; try discriminate.
      exists i, H_i, h_i. auto.
    + intros (i & H_i & h_i & EH & Er & Hlt).
      exists i, (dot H_i (current_state e)), h_i.
      rewrite matvec_nth_error, col_nth_error, EH, Er. auto.
Qed.

(** The theorem at a state outside the safe box. *)
Lemma C7_pendulum_done_iff_violation_witness :
  let '(done, status_code, _) :=
    InvertedPendulum._check_current_state Examples.pendulum_unsafe in
  status_code = 0%Z /\
  (done = true <->
   exists i H_i h_i,
     nth_error (h_mat_safe Examples.pendulum_unsafe) i = Some H_i /\
     nth_error (h_safe Examples.pendulum_unsafe) i = Some [h_i] /\
     h_i < dot H_i (current_state Examples.pendulum_unsafe)).
Proof.
  apply (C7_pendulum_done_iff_violation Examples.pendulum_unsafe).
  - reflexivity.
  - repeat constructor.
Defined.

(** ** Products with a diagonal matrix *)

Lemma dot_select (j : nat) (v : vec) :
  forall (row : vec) (s n : nat),
    length row = n ->
    dot row (map (fun i => if Nat.eqb i j then nth i v 0 else 0) (seq s n))
    == (if andb (s <=? j)%nat (j <? s + n)%nat
        then nth (j - s) row 0 * nth j v 0 else 0).
Proof.
  induction row as [|a row IH]; intros s n Hlen; destruct n as [|n];
    simpl in Hlen; try discriminate.
  - simpl. destruct (Nat.leb_spec s j), (Nat.ltb_spec j (s + 0)); simpl;
      try reflexivity; lia.
  - injection Hlen as Hlen. cbn [seq map dot].
    rewrite (IH (S s) n Hlen).
    destruct (Nat.eqb_spec s j) as [->|Hne].
    + replace (j - j)%nat with 0%nat by lia. cbn [nth].
      destruct (Nat.leb_spec (S j) j); [lia|].
      destruct (Nat.leb_spec j j); [|lia].
      destruct (Nat.ltb_spec j (j + S n)); [|lia].
      simpl. ring.
    + destruct (Nat.leb_spec (S s) j), (Nat.ltb_spec j (S s + n)),
        (Nat.leb_spec s j), (Nat.ltb_spec j (s + S n));
        simpl; try lia; try ring.
      replace (j - s)%nat with (S (j - S s)) by lia. cbn [nth]. ring.
Qed.

Lemma ncols_diag (v : vec) : ncols (diag v) = length v.
Proof.
  unfold diag. destruct v as [|a v]; [reflexivity|].
  cbn [length seq map ncols]. rewrite length_map, length_seq. reflexivity.
Qed.

Lemma nth_map_seq {A : Type} (f : nat -> A) (d : A) (n : nat) :
  forall s j, (j < n)%nat -> nth j (map f (seq s n)) d = f (s + j)%nat.
Proof.
  induction n as [|n IH]; intros s j Hj; [lia|].
  destruct j as [|j]; cbn [seq map nth].
  - f_equal. lia.
  - rewrite IH by lia. f_equal. lia.
Qed.

Lemma col_diag (v : vec) (j : nat) :
  (j < length v)%nat ->
  col j (diag v) =
  map (fun i => if Nat.eqb i j then nth i v 0 else 0) (seq 0 (length v)).
Proof.
  intros Hj. unfold col, diag. rewrite map_map.
  apply map_ext. intros i.
  rewrite nth_map_seq by exact Hj. reflexivity.
Qed.

(** Right multiplication by [diag(v)] scales column [j] by [v_j]. *)
Lemma matmul_diag_columns_scaled (A : mat) (v : vec) :
  Forall (fun r => length r = length v) A ->
  columns_scaled A v (matmul A (diag v)).
Proof.
  intros Hshape. split.
  - unfold matmul. apply length_map.
  - intros i j row Hrow Hj.
    exists (map (fun j0 => dot row (col j0 (diag v)))
                (seq 0 (ncols (diag v)))).
    split; [unfold matmul; rewrite nth_error_map;
            exact (f_equal (option_map _) Hrow)|].
    split.
    + rewrite length_map, length_seq. apply ncols_diag.
    + rewrite ncols_diag.
      rewrite nth_map_seq by exact Hj. cbn [Nat.add].
      rewrite col_diag by exact Hj.
      rewrite dot_select.
      * destruct (Nat.leb_spec 0 j); [|lia].
        destruct (Nat.ltb_spec j (0 + length v)); [|lia].
        rewrite Nat.sub_0_r. reflexivity.
      * rewrite Forall_forall in Hshape. apply Hshape.
        eapply nth_error_In; eauto.
Qed.

(** ** [get_safety_constraints] *)

(** C8: with [normalize=True] both environments return the safe-constraint
    matrix multiplied on the right by [diag(norm_x)], that is with column
    [j] scaled by [norm_x[j]], and the vector [h_safe] as stored; CartPole
    treats the obstacle matrix in the same way when it is present, and a
    pendulum built by its constructor returns [None] for the obstacle
    polytope.  With [normalize=False] the stored arrays are returned.  The
    object is the same after the call.  The stored matrices have one column
    per state dimension. *)
Theorem C8_get_safety_constraints `{Libraries}
  (ip : InvertedPendulum.env) (cp : CartPole.env) :
  Forall (fun r => length r = length (fst (norm ip))) (h_mat_safe ip) ->
  Forall (fun r => length r = length (fst (norm cp))) (h_mat_safe cp) ->
  (forall Ho, h_mat_obs cp = Some Ho ->
              Forall (fun r => length r = length (fst (norm cp))) Ho) ->
  (exists Hn,
      InvertedPendulum.get_safety_constraints ip true
      = (ip, (Hn, h_safe ip, h_mat_obs ip, h_obs ip))
      /\ Hn = matmul (h_mat_safe ip) (diag (fst (norm ip)))
      /\ columns_scaled (h_mat_safe ip) (fst (norm ip)) Hn)
  /\ InvertedPendulum.get_safety_constraints ip false
     = (ip, (h_mat_safe ip, h_safe ip, h_mat_obs ip, h_obs ip))
  /\ (forall l m g b dt plant_noise u_min u_max verbosity norm_x norm_u
             simple_constraints enable_objectives normalized,
         let e := InvertedPendulum.init l m g b dt plant_noise u_min u_max
                    verbosity norm_x norm_u simple_constraints
                    enable_objectives in
         let '(_, (_, _, Ho, ho)) :=
           InvertedPendulum.get_safety_constraints e normalized in
         Ho = None /\ ho = None)
  /\ (exists Hn Hon,
         CartPole.get_safety_constraints cp true
         = (cp, (Hn, h_safe cp, Hon, h_obs cp))
         /\ Hn = matmul (h_mat_safe cp) (diag (fst (norm cp)))
         /\ columns_scaled (h_mat_safe cp) (fst (norm cp)) Hn
         /\ match h_mat_obs cp with
            | Some Ho =>
                Hon = Some (matmul Ho (diag (fst (norm cp))))
                /\ columns_scaled Ho (fst (norm cp))
                                  (matmul Ho (diag (fst (norm cp))))
            | None => Hon = None
            end)
  /\ CartPole.get_safety_constraints cp false
     = (cp, (h_mat_safe cp, h_safe cp, h_mat_obs cp, h_obs cp)).
Proof.
  intros Hip Hcp Hobs.
  split; [|split; [|split; [|split]]].
  - eexists. split; [reflexivity|]. split; [reflexivity|].
    apply matmul_diag_columns_scaled; exact Hip.
  - reflexivity.
  - intros l m g b dt0 pn lo hi vb nx nu sc eo normalized e. subst e.
    destruct normalized; simpl; split; reflexivity.
  - unfold CartPole.get_safety_constraints. cbn [fst snd].
    destruct (h_mat_obs cp) as [Ho|] eqn:EHo.
    + eexists; eexists. split; [reflexivity|]. split; [reflexivity|].
      split; [apply matmul_diag_columns_scaled; exact Hcp|].
      split; [reflexivity|].
      apply matmul_diag_columns_scaled. apply Hobs. reflexivity.
    + eexists; eexists. split; [reflexivity|]. split; [reflexivity|].
      split; [apply matmul_diag_columns_scaled; exact Hcp|]. reflexivity.
  - reflexivity.
Qed.

(** The theorem at the example pendulum and the example cart-pole. *)
Lemma C8_get_safety_constraints_witness :
  exists Hn,
    InvertedPendulum.get_safety_constraints Examples.pendulum_unsafe true
    = (Examples.pendulum_unsafe,
       (Hn, h_safe Examples.pendulum_unsafe,
        h_mat_obs Examples.pendulum_unsafe, h_obs Examples.pendulum_unsafe))
    /\ Hn = matmul (h_mat_safe Examples.pendulum_unsafe)
                   (diag (fst (norm Examples.pendulum_unsafe)))
    /\ columns_scaled (h_mat_safe Examples.pendulum_unsafe)
                      (fst (norm Examples.pendulum_unsafe)) Hn.
Proof.
  refine (proj1 (@C8_get_safety_constraints (Examples.stub_libraries true)
                   Examples.pendulum_unsafe Examples.cartpole _ _ _)).
  - repeat constructor.
  - repeat constructor.
  - intros Ho E. injection E as <-. repeat constructor.
Defined.

(** ** [Environment.step] *)

Lemma pendulum_check_keeps_base :
  @check_keeps_base InvertedPendulum.Attrs InvertedPendulum.methods.
Proof.
  intros e. cbn [_check_current_state InvertedPendulum.methods].
  destruct (pendulum_check_keeps_env e)
    as (_ & _ & _ & _ & Hs & Ho & _ & Hi & _).
  auto.
Qed.

Lemma cartpole_check_keeps_base :
  @check_keeps_base CartPole.Attrs CartPole.methods.
Proof. intros e. cbn. auto. Qed.

Section StepFacts.
Context {X : Type} `{Libraries} `{Methods X}.
Hypothesis keeps : check_keeps_base.

Lemma step_outcome_holds (e : Environment X) (action : list xnum)
  (noise : vec) : step_outcome e action noise.
Proof.
  unfold step_outcome, step, integrate, set_f_params.
  cbn [ode_f_params ode_y ode_t].
  destruct (ode_run _ _ _ _) as [[y t'] ok].
  set (e1 := with_solver_and_state e _ y).
  pose proof (keeps e1) as Hk. cbn zeta in Hk.
  destruct (_check_current_state e1) as [[done code] e2].
  cbn [snd] in Hk. destruct Hk as (Ho & Hs & Hi).
  unfold successful. rewrite Ho. subst e1.
  cbn [odesolver with_solver_and_state ode_success].
  cbn [current_state with_solver_and_state inv_norm] in Hs, Hi.
  destruct ok; (split; [exact Ho|split; [exact Hs|]]).
  - rewrite Hs, Hi. reflexivity.
  - reflexivity.
Qed.

End StepFacts.

(** Clipping moves every value that lies outside a proper interval. *)
Lemma clip1_moves_outside (x : xnum) (lo hi : Q) :
  lo <= hi -> xlt x lo \/ xgt x hi -> xneq x (clip1 (nan_to_num1 x) lo hi).
Proof.
  intros Hle Hout. destruct x as [q| | |]; cbn; auto.
  unfold clip1. cbn in Hout.
  destruct (Q.max_spec q lo) as [[H1 Hmax]|[H1 Hmax]];
    destruct (Q.min_spec hi (Qmax q lo)) as [[H2 Hmin]|[H2 Hmin]];
    revert H1 H2 Hmax Hmin;
    generalize (Qmin hi (Qmax q lo)); generalize (Qmax q lo);
    intros mx mn H1 H2 Hmax Hmin Heq; destruct Hout; lraQ.
Qed.

Lemma clip_nth_error (a lo hi : vec) (i : nat) (x l h : Q) :
  nth_error a i = Some x -> nth_error lo i = Some l ->
  nth_error hi i = Some h ->
  nth_error (clip a lo hi) i = Some (clip1 x l h).
Proof.
  intros Ha Hl Hh. unfold clip.
  apply (map2_nth_error (fun x b => clip1 x (fst b) (snd b)) a (combine lo hi)
                        i x (l, h) Ha).
  clear Ha. revert i lo Hl Hh.
  induction hi as [|h0 hi IH]; intros [|i] [|l0 lo] Hl Hh;
    cbn in *; try discriminate.
  - congruence.
  - auto.
Qed.

Section StepActions.
Context {X : Type} `{Libraries} `{Methods X}.
Hypothesis keeps : check_keeps_base.

Lemma step_actions_hold (e : Environment X) (action : list xnum)
  (noise : vec) : step_actions e action noise.
Proof.
  pose proof (step_outcome_holds keeps e action noise) as Hout.
  unfold step_outcome, step_actions in *.
  destruct (ode_run _ _ _ _) as [[y t'] ok].
  destruct (_check_current_state _) as [[done code] e2].
  destruct (step e action noise) as [e' r].
  destruct Hout as (Ho & _ & Hr).
  split; [rewrite Ho; reflexivity|]. split.
  - intros out Hret. destruct ok; rewrite Hr in Hret.
    + injection Hret as <-. reflexivity.
    + discriminate.
  - intros i x lo hi Hx Hlo Hhi Hle Hside.
    exists (clip1 (nan_to_num1 x) lo hi). split.
    + apply clip_nth_error; auto.
      unfold nan_to_num. rewrite nth_error_map, Hx. reflexivity.
    + apply clip1_moves_outside; assumption.
Qed.

End StepActions.

(** C6: in both environments [step] runs the integrator once; when the
    integrator reports failure the call raises [ValueError], and otherwise
    it returns the clipped normalised action, the next observation, the
    noisy observation, the done flag and the result code. *)
Theorem C6_step_raises_iff_integration_failed `{Libraries}
  (ip : InvertedPendulum.env) (cp : CartPole.env)
  (action : list xnum) (noise : vec) :
  @step_outcome _ _ InvertedPendulum.methods ip action noise
  /\ @step_outcome _ _ CartPole.methods cp action noise.
Proof.
  split.
  - apply step_outcome_holds. exact pendulum_check_keeps_base.
  - apply step_outcome_holds. exact cartpole_check_keeps_base.
Qed.



(** The two outcomes of [step] on the example pendulum. *)
Example step_pendulum_integrator_fails :
  snd (@step _ (Examples.stub_libraries false) InvertedPendulum.methods
             Examples.pendulum_unsafe [Fin 3] [0; 0])
  = raise (ValueError "Odesolver failed!").
Proof. vm_compute. reflexivity. Qed.

Example step_pendulum_integrator_succeeds :
  snd (@step _ (Examples.stub_libraries true) InvertedPendulum.methods
             Examples.pendulum_unsafe [Fin 3] [0; 0])
  = ret ([1], [1; 0], [1; 0], true, 0%Z).
Proof. vm_compute. reflexivity. Qed.

(** ** [Environment.linearize_discretize] *)

(** Splitting the Jacobian at column [n_s] loses nothing. *)
Lemma hstack_cols_split (k : nat) (M : mat) :
  hstack (cols_before k M) (cols_from k M) = M.
Proof.
  unfold hstack, cols_before, cols_from.
  induction M as [|r M IH]; cbn; [reflexivity|].
  rewrite firstn_skipn, IH. reflexivity.
Qed.

(** C10: [linearize_discretize] raises [NotImplementedError] whenever a
    linearisation centre is given for the state or for the action; with
    both absent it returns the first two matrices that [cont2discrete]
    gives for the two blocks of the Jacobian at the origin (together they
    are the whole Jacobian), normalised by the scaling matrices when asked
    for, the identity and the zero matrix, and the time step. *)
Theorem C10_linearize_discretize `{Libraries} {X : Type} `{Methods X}
  (e : Environment X) (x_center u_center : option vec) (normalized : bool) :
  (forall xc,
      linearize_discretize e (Some xc) u_center normalized
      = raise (NotImplementedError
                 "For now we only allow linearization at the origin!"))
  /\ (forall uc,
         linearize_discretize e x_center (Some uc) normalized
         = raise (NotImplementedError
                    "For now we only allow linearization at the origin!"))
  /\ (let jac := _jac_dynamics e in
      let A_ct := cols_before (n_s e) jac in
      let B_ct := cols_from (n_s e) jac in
      let A_n := if normalized
                 then multi_dot3 (diag (fst (inv_norm e))) A_ct
                                 (diag (fst (norm e)))
                 else A_ct in
      let B_n := if normalized
                 then multi_dot3 (diag (fst (inv_norm e))) B_ct
                                 (diag (snd (norm e)))
                 else B_ct in
      hstack A_ct B_ct = jac
      /\ linearize_discretize e None None normalized
         = ret (let '(A, B, _, _, _) :=
                  cont2discrete
                    (A_n, B_n, eye (n_s e), zeros (n_s e) (n_u e)) (dt e) in
                (A, B))).
Proof.
  split; [|split].
  - intros xc. reflexivity.
  - intros uc. destruct x_center; reflexivity.
  - cbn zeta. split; [apply hstack_cols_split|].
    unfold linearize_discretize.
    destruct (cont2discrete _ _) as [[[[A B] C] D] t].
    reflexivity.
Qed.

(** ** The rollout loop *)

Import EpisodeRunner.

Lemma exit_code_of_cases (r : MpcResult) :
  (exit_code_of r = 1%Z <-> r = FOUND_SOLUTION \/ r = PREVIOUS_SOLUTION)
  /\ (exit_code_of r = 0%Z <-> r = SAFE_CONTROLLER).
Proof.
  destruct r; cbn; split; split; intro Hc;
    try discriminate; auto;
    try (destruct Hc as [Hc|Hc]; discriminate).
Qed.

Section RolloutFacts.
Context {X Sv : Type} `{Libraries} `{Methods X} `{Solver Sv}.

(** The decisions among the steps, in order. *)
Lemma decisions_cons (r : @StepRecord Sv) (rs : list (@StepRecord Sv)) :
  flat_map (fun r0 => match decision r0 with
                      | Some m => [m]
                      | None => []
                      end) (r :: rs)
  = match decision r with Some m => [m] | None => [] end
      ++ flat_map (fun r0 => match decision r0 with
                             | Some m => [m]
                             | None => []
                             end) rs.
Proof. reflexivity. Qed.

(** What the loop has recorded when it returns, in terms of the steps
    made: one row of inputs, one observation and one exit code per step,
    the costs of the next states, the log of decisions, the count of
    steps and the safety flag. *)
Lemma rollout_loop_steps (cost : option (vec -> Q)) (draws : list Draw) :
  forall env solver v env' solver' v',
    rollout_loop draws cost env solver v = (env', solver', inr v') ->
    let steps := rollout_steps draws env solver (state v) in
    exit_codes v' = exit_codes v ++ map exit_code_of_step steps
    /\ xx v' = xx v ++ map (fun r => at_state r ++ returned_action r) steps
    /\ yy v' = yy v ++ map observation steps
    /\ cc v' = cc v ++ match cost with
                       | Some c => map (fun r => c (next_state r)) steps
                       | None => []
                       end
    /\ mpc_results v'
       = mpc_results v
           ++ flat_map (fun r => match decision r with
                                 | Some m => [m]
                                 | None => []
                                 end) steps
    /\ n_successful v' = (n_successful v + length steps)%nat
    /\ safety_failure v' = safety_failure v || existsb done steps
    /\ (length steps <= length draws)%nat
    /\ (existsb done steps = false -> length steps = length draws).
Proof.
  induction draws as [|d draws IH]; intros env solver v env' solver' v' Hrun.
  - cbn in Hrun. injection Hrun as _ _ <-. cbn.
    rewrite !app_nil_r, orb_false_r, Nat.add_0_r.
    repeat split; auto. destruct cost; rewrite ?app_nil_r; reflexivity.
  - cbn [rollout_loop] in Hrun. cbn [rollout_steps]. cbn zeta.
    destruct solver as [s|].
    + destruct (get_action s (state v)) as [[action r] s1].
      destruct (step env action (obs_noise d)) as [env1 [e|out]];
        [discriminate|].
      destruct out as [[[[a' nxt] obs] fin] env_result'].
      destruct fin.
      * injection Hrun as _ _ <-. cbn.
        rewrite orb_true_r.
        repeat split; auto; try lia; try discriminate.
        destruct cost; cbn; rewrite ?app_nil_r; reflexivity.
      * apply IH in Hrun. cbn zeta in Hrun.
        cbn [state xx yy exit_codes cc n_successful mpc_results
             safety_failure] in Hrun.
        destruct Hrun as (Hc & Hx & Hy & Hcc & Hm & Hn & Hs & Hl & Hd).
        rewrite decisions_cons.
        cbn [map existsb done length decision orb].
        rewrite Hc, Hx, Hy, Hcc, Hm, Hn, Hs, <- !app_assoc.
        repeat split; auto; try lia;
          try (intros Hf; rewrite (Hd Hf); reflexivity).
        destruct cost; cbn; rewrite <- ?app_assoc; reflexivity.
    + destruct (step env (random_action d) (obs_noise d))
        as [env1 [e|out]]; [discriminate|].
      destruct out as [[[[a' nxt] obs] fin] env_result'].
      destruct fin.
      * injection Hrun as _ _ <-. cbn.
        rewrite orb_true_r, app_nil_r.
        repeat split; auto; try lia; try discriminate.
        destruct cost; cbn; rewrite ?app_nil_r; reflexivity.
      * apply IH in Hrun. cbn zeta in Hrun.
        cbn [state xx yy exit_codes cc n_successful mpc_results
             safety_failure] in Hrun.
        destruct Hrun as (Hc & Hx & Hy & Hcc & Hm & Hn & Hs & Hl & Hd).
        rewrite decisions_cons.
        cbn [map existsb done length decision orb app].
        rewrite Hc, Hx, Hy, Hcc, Hm, Hn, Hs, <- !app_assoc.
        repeat split; auto; try lia;
          try (intros Hf; rewrite (Hd Hf); reflexivity).
        destruct cost; cbn; rewrite <- ?app_assoc; reflexivity.
Qed.

(** With a solver, every step has the solver object, and its decision is
    the result [get_action] gives for this object at the state the step
    starts from. *)
Lemma rollout_steps_decisions (draws : list Draw) :
  forall env s current,
    Forall (fun r =>
              exists s_i,
                solver_before r = Some s_i
                /\ decision r
                   = Some (snd (fst (get_action s_i (at_state r)))))
           (rollout_steps draws env (Some s) current).
Proof.
  induction draws as [|d draws IH]; intros env s current; cbn.
  - constructor.
  - destruct (get_action s current) as [[action r] s1] eqn:Hact.
    destruct (step env action (obs_noise d)) as [env1 [e|out]];
      [constructor|].
    destruct out as [[[[a' nxt] obs] fin] env_result'].
    constructor.
    + exists s. cbn. rewrite Hact. auto.
    + destruct fin; [constructor|apply IH].
Qed.

(** The steps form a chain: the first starts at the given state with the
    given solver object, and each further step starts at the next state
    of the step before it, with the solver object as [get_action] left it
    in that step. *)
Lemma rollout_steps_chain (draws : list Draw) :
  forall env solver current,
    let steps := rollout_steps draws env solver current in
    (forall first,
        nth_error steps 0 = Some first ->
        solver_before first = solver /\ at_state first = current)
    /\ (forall i a b,
           nth_error steps i = Some a ->
           nth_error steps (S i) = Some b ->
           at_state b = next_state a
           /\ solver_before b
              = match solver_before a with
                | Some s_i => Some (snd (get_action s_i (at_state a)))
                | None => None
                end).
Proof.
  induction draws as [|d draws IH]; intros env solver current; cbn zeta.
  - cbn. split; [discriminate|]. intros [|i]; discriminate.
  - cbn [rollout_steps].
    assert (Hsolver :
              exists action decided solver',
                match solver with
                | Some s =>
                    let '(action, mpc_result, s') := get_action s current in
                    (action, Some mpc_result, Some s')
                | None => (random_action d, None, None)
                end = (action, decided, solver')
                /\ solver'
                   = match solver with
                     | Some s => Some (snd (get_action s current))
                     | None => None
                     end).
    { destruct solver as [s|].
      - destruct (get_action s current) as [[a r] s1].
        do 3 eexists. split; reflexivity.
      - do 3 eexists. split; reflexivity. }
    destruct Hsolver as (action & decided & solver' & -> & Hnext).
    destruct (step env action (obs_noise d)) as [env1 [e|out]].
    + cbn. split; [discriminate|]. intros [|i]; discriminate.
    + destruct out as [[[[a' nxt] obs] fin] env_result'].
      split.
      * cbn. intros first Hfirst. injection Hfirst as <-. cbn. auto.
      * intros [|i] a b Ha Hb.
        -- cbn in Ha. injection Ha as <-. cbn [nth_error] in Hb.
           destruct fin; [discriminate|].
           destruct (IH env1 solver' nxt) as [Hfirst _].
           destruct (Hfirst b Hb) as [Hs Hat]. cbn.
           rewrite Hat, Hs, Hnext. auto.
        -- cbn [nth_error] in Ha, Hb.
           destruct fin; [destruct i; discriminate|].
           destruct (IH env1 solver' nxt) as [_ Hchain].
           exact (Hchain i a b Ha Hb).
Qed.

End RolloutFacts.

(** C3: the exit code the rollout loop derives from an [MpcResult] is 1
    exactly for [FOUND_SOLUTION] and [PREVIOUS_SOLUTION] and 0 exactly for
    [SAFE_CONTROLLER]; and when a rollout with a solver returns, it
    returns one exit code for every step made, in order, each of them the
    code of the result that [get_action] gave in that step: 1 exactly
    when that result is [FOUND_SOLUTION] or [PREVIOUS_SOLUTION], 0 exactly
    when it is [SAFE_CONTROLLER], and no other value, so a fallback shows
    as a 0 at its step.  The calls of [get_action] are those of the loop:
    the first on the given solver at the start state, each further one on
    the solver as the call before left it, at the next state of the step
    before.  (That a result is one of the three variants is the type
    [MpcResult].) *)
Theorem C3_exit_codes_reflect_mpc_results
  {X Sv : Type} `{Libraries} `{Methods X} `{Plotting X} `{Solver Sv}
  (env : Environment X) (start : vec) (draws : list Draw) (s : Sv)
  (cost : option (vec -> Q)) (obs_frequency : nat) (plot_trajectory : bool)
  env' solver' xs ys cs codes failed :
  do_rollout env start draws (Some s) cost obs_frequency plot_trajectory
  = (env', solver', inr (xs, ys, cs, codes, failed)) ->
  let steps :=
    rollout_steps draws (fst (reset env start)) (Some s)
                  (snd (reset env start)) in
  (forall r : MpcResult,
      (exit_code_of r = 1%Z <-> r = FOUND_SOLUTION \/ r = PREVIOUS_SOLUTION)
      /\ (exit_code_of r = 0%Z <-> r = SAFE_CONTROLLER))
  /\ steps <> []
  /\ Forall2
       (fun c step =>
          exists s_i r,
            solver_before step = Some s_i
            /\ snd (fst (get_action s_i (at_state step))) = r
            /\ decision step = Some r
            /\ c = exit_code_of r
            /\ (c = 1%Z \/ c = 0%Z)
            /\ (c = 1%Z <-> r = FOUND_SOLUTION \/ r = PREVIOUS_SOLUTION)
            /\ (c = 0%Z <-> r = SAFE_CONTROLLER))
       codes steps
  /\ (forall first,
         nth_error steps 0 = Some first ->
         solver_before first = Some s
         /\ at_state first = snd (reset env start))
  /\ (forall i a b s_i,
         nth_error steps i = Some a ->
         nth_error steps (S i) = Some b ->
         solver_before a = Some s_i ->
         solver_before b = Some (snd (get_action s_i (at_state a)))
         /\ at_state b = next_state a).
Proof.
  intros Hrun steps. split; [exact exit_code_of_cases|].
  unfold do_rollout in Hrun. subst steps.
  destruct (reset env start) as [env0 state0]. cbn [fst snd].
  destruct (plot_trajectory && negb has_plot_methods); [discriminate|].
  destruct (rollout_loop draws cost env0 (Some s) _)
    as [[env1 solver1] [e|v]] eqn:Hloop; [discriminate|].
  destruct (Nat.eqb (n_successful v) 0) eqn:Hn; [discriminate|].
  destruct (slice_1_m1 obs_frequency (xx v)) as [e1|xs1];
    [destruct (slice_1_m1 obs_frequency (yy v)); discriminate|].
  destruct (slice_1_m1 obs_frequency (yy v)) as [e2|ys1]; [discriminate|].
  injection Hrun as _ _ _ _ _ Hcodes _.
  apply rollout_loop_steps in Hloop. cbn zeta in Hloop.
  cbn [state exit_codes n_successful] in Hloop.
  destruct Hloop as (Hc & _ & _ & _ & _ & Hcount & _).
  rewrite Hc in Hcodes. cbn [app tl] in Hcodes. subst codes.
  destruct (rollout_steps_chain draws env0 (Some s) state0)
    as [Hfirst Hchain].
  split; [|split; [|split; [exact Hfirst|]]].
  - intros Hnil. rewrite Hnil in Hcount. cbn in Hcount.
    rewrite Hcount in Hn. discriminate.
  - pose proof (rollout_steps_decisions draws env0 s state0) as Hdec.
    clear Hc Hcount Hn Hfirst Hchain.
    induction Hdec as [|step steps (s_i & Hsolver & Hstep) _ IH];
      cbn [map].
    + constructor.
    + constructor; [|exact IH].
      exists s_i, (snd (fst (get_action s_i (at_state step)))).
      unfold exit_code_of_step. rewrite Hstep.
      split; [exact Hsolver|].
      split; [reflexivity|]. split; [reflexivity|].
      split; [reflexivity|].
      split; [|apply exit_code_of_cases].
      destruct (snd (fst (get_action s_i (at_state step)))); cbn; auto.
  - intros i a b s_i Ha Hb Hs.
    destruct (Hchain i a b Ha Hb) as [Hat Hnext].
    rewrite Hs in Hnext. auto.
Qed.

(** The theorem at a three-step rollout of the example pendulum with the
    counting solver: the recorded codes 1, 1, 0 are the codes of the three
    steps made. *)
Lemma C3_exit_codes_reflect_mpc_results_witness :
  Forall2
    (fun c step =>
       exists s_i r,
         solver_before step = Some s_i
         /\ snd (fst (@get_action _ Examples.counting_solver s_i
                                  (at_state step))) = r
         /\ decision step = Some r
         /\ c = exit_code_of r
         /\ (c = 1%Z \/ c = 0%Z)
         /\ (c = 1%Z <-> r = FOUND_SOLUTION \/ r = PREVIOUS_SOLUTION)
         /\ (c = 0%Z <-> r = SAFE_CONTROLLER))
    [1%Z; 1%Z; 0%Z]
    (@rollout_steps _ _ (Examples.stub_libraries true)
       InvertedPendulum.methods Examples.counting_solver
       Examples.three_draws
       (fst (@reset _ InvertedPendulum.methods Examples.pendulum_safe
                    [0; 0]))
       (Some 0%nat)
       (snd (@reset _ InvertedPendulum.methods Examples.pendulum_safe
                    [0; 0]))).
Proof.
  assert (Hout :
            snd (@do_rollout _ _ (Examples.stub_libraries true)
                   InvertedPendulum.methods Examples.counting_solver
                   InvertedPendulum.plotting
                   Examples.pendulum_safe [0; 0] Examples.three_draws
                   (Some 0%nat) None 1%nat true)
            = inr ([[0; 0; 0]; [0; 0; 0]], [[0; 0]; [0; 0]], [],
                   [1%Z; 1%Z; 0%Z], false))
    by (vm_compute; reflexivity).
  destruct (@do_rollout _ _ (Examples.stub_libraries true)
              InvertedPendulum.methods Examples.counting_solver
              InvertedPendulum.plotting
              Examples.pendulum_safe [0; 0] Examples.three_draws
              (Some 0%nat) None 1%nat true) as [[env' solver'] r] eqn:Hrun.
  cbn [snd] in Hout. subst r.
  exact (proj1 (proj2 (proj2 (C3_exit_codes_reflect_mpc_results
                                _ _ _ _ _ _ _ _ _ _ _ _ _ _ Hrun)))).
Defined.

(** ** The safety certificate checker *)

Section CertificateFacts.
Local Open Scope R_scope.

Lemma row_holds_iff (c_safety : R) (e : Core.Ellipsoid)
  (row : Core.rvec * R) :
  Core.row_holds c_safety e row = true <->
  Core.rdot (fst row) (Core.center e)
  + c_safety * sqrt (Core.quad_form (fst row) (Core.shape e)) <= snd row.
Proof.
  unfold Core.row_holds, Core.support_bound.
  destruct (Rle_dec _ _) as [Hle|Hnle]; split; intro Hc;
    auto; try discriminate; try contradiction.
Qed.

Lemma certified_iff (c_safety : R) (traj : Core.Trajectory)
  (Hm : Core.rmat) (h : Core.rvec) :
  Core.certified c_safety traj Hm h = true <->
  forall e law H_i h_i,
    In (e, law) traj -> In (H_i, h_i) (combine Hm h) ->
    Core.rdot H_i (Core.center e)
    + c_safety * sqrt (Core.quad_form H_i (Core.shape e)) <= h_i.
Proof.
  unfold Core.certified, Core.verdicts.
  rewrite forallb_forall. split.
  - intros Hall e law H_i h_i He Hrow.
    specialize (Hall (map (Core.row_holds c_safety e) (combine Hm h))).
    assert (Hin : In (map (Core.row_holds c_safety e) (combine Hm h))
                     (map (fun step =>
                             map (Core.row_holds c_safety (fst step))
                                 (combine Hm h)) traj)).
    { apply in_map_iff. exists (e, law). auto. }
    apply Hall in Hin. rewrite forallb_forall in Hin.
    apply (row_holds_iff c_safety e (H_i, h_i)).
    apply Hin. apply in_map. exact Hrow.
  - intros Hall bs Hbs. apply in_map_iff in Hbs.
    destruct Hbs as ([e law] & <- & He).
    apply forallb_forall. intros b Hb. apply in_map_iff in Hb.
    destruct Hb as ([H_i h_i] & <- & Hrow). cbn [fst].
    apply row_holds_iff. cbn [fst snd]. eauto.
Qed.

Lemma sqrt_hundredth : sqrt 0.01 = 0.1.
Proof. apply sqrt_lem_1; lraR. Qed.

(** C4: the checker certifies a trajectory exactly when
    [H_i.p + c_safety * sqrt(H_i Q H_i^T) <= h_i] holds for every
    ellipsoid of the trajectory and every constraint row, each single
    verdict being this comparison; with [H = [[1, 0]]], [h = [1]],
    [Q = diag(0.01, 0)] and [c_safety = 2] it certifies the centre
    [[0.5, 0]] and rejects the centre [[0.95, 0]], reporting step 0,
    row 0. *)
Theorem C4_certificate_is_support_function_test :
  (forall c_safety traj Hm h,
      Core.certified c_safety traj Hm h = true <->
      forall e law H_i h_i,
        In (e, law) traj -> In (H_i, h_i) (combine Hm h) ->
        Core.rdot H_i (Core.center e)
        + c_safety * sqrt (Core.quad_form H_i (Core.shape e)) <= h_i)
  /\ (forall c_safety e row,
         Core.row_holds c_safety e row = true <->
         Core.rdot (fst row) (Core.center e)
         + c_safety * sqrt (Core.quad_form (fst row) (Core.shape e))
         <= snd row)
  /\ (forall law,
         Core.certified 2
           [(Core.mkEllipsoid [0.5; 0] [[0.01; 0]; [0; 0]], law)]
           [[1; 0]] [1] = true)
  /\ (forall law,
         Core.certified 2
           [(Core.mkEllipsoid [0.95; 0] [[0.01; 0]; [0; 0]], law)]
           [[1; 0]] [1] = false
         /\ Core.first_violation 2
              [(Core.mkEllipsoid [0.95; 0] [[0.01; 0]; [0; 0]], law)]
              [[1; 0]] [1] = Some (0%nat, 0%nat)).
Proof.
  assert (Hq : Core.quad_form [1; 0] [[0.01; 0]; [0; 0]] = 0.01).
  { unfold Core.quad_form, Core.rmatvec. cbn. lraR. }
  split; [exact certified_iff|].
  split; [exact row_holds_iff|].
  split.
  - intros law. apply certified_iff.
    intros e law' H_i h_i [He|[]] [Hrow|[]].
    injection He as <- _. injection Hrow as <- <-.
    cbn [Core.center Core.shape]. rewrite Hq, sqrt_hundredth.
    cbn. lraR.
  - intros law.
    assert (Hrow : Core.row_holds 2
                     (Core.mkEllipsoid [0.95; 0] [[0.01; 0]; [0; 0]])
                     ([1; 0], 1) = false).
    { destruct (Core.row_holds _ _ _) eqn:E; [|reflexivity].
      apply row_holds_iff in E. cbn [fst snd Core.center Core.shape] in E.
      rewrite Hq, sqrt_hundredth in E. cbn in E. lraR. }
    unfold Core.first_violation, Core.certified, Core.verdicts.
    cbn [map combine fst]. rewrite Hrow. cbn. auto.
Qed.

End CertificateFacts.

(** ** The multi-step reachability engine *)

Lemma map_fst_combine {A B : Type} (xs : list A) :
  forall ys : list B, length xs = length ys -> map fst (combine xs ys) = xs.
Proof.
  induction xs as [|x xs IH]; intros [|y ys] Hlen; cbn in *;
    try discriminate; [reflexivity|].
  f_equal. apply IH. lia.
Qed.

Lemma map_snd_combine {A B : Type} (xs : list A) :
  forall ys : list B, length xs = length ys -> map snd (combine xs ys) = ys.
Proof.
  induction xs as [|x xs IH]; intros [|y ys] Hlen; cbn in *;
    try discriminate; [reflexivity|].
  f_equal. apply IH. lia.
Qed.

Section MultiStepFacts.
Variable onestep : Core.Ellipsoid -> Core.ControlLaw -> Core.Ellipsoid.

Lemma by_hand_cons (e : Core.Ellipsoid) (l : Core.ControlLaw)
  (ls : list Core.ControlLaw) :
  Core.by_hand onestep e (l :: ls)
  = (onestep e l, l) :: Core.by_hand onestep (onestep e l) ls.
Proof.
  unfold Core.by_hand. cbn [length seq map combine firstn Core.chain].
  f_equal. f_equal.
  rewrite <- seq_shift, map_map. reflexivity.
Qed.

Lemma multistep_loop_by_hand (k_fb_init : option Core.rmat)
  (laws : list Core.ControlLaw) :
  forall last acc,
    Core.multistep_loop onestep k_fb_init laws last acc
    = acc ++ Core.by_hand onestep last (map (Core.step_law k_fb_init) laws).
Proof.
  induction laws as [|corr laws IH]; intros last acc.
  - cbn. rewrite app_nil_r. reflexivity.
  - cbn [Core.multistep_loop map]. rewrite IH, by_hand_cons.
    rewrite <- app_assoc. reflexivity.
Qed.

(** C2: the trajectory of the multi-step engine has one entry per step,
    [T] in all for [T - 1] corrections, and its [i]-th ellipsoid is the
    one obtained by chaining the one-step propagator by hand over the
    first [i + 1] per-step laws, every call starting from the ellipsoid
    the call before returned. *)
Theorem C2_multistep_equals_chained_onestep
  (e0 : Core.Ellipsoid) (u_0 : Core.rvec) (k_fb_0 : Core.rmat)
  (k_fb_init : option Core.rmat) (laws : list Core.ControlLaw) :
  let traj :=
    Core.multistep_reachability onestep e0 u_0 k_fb_0 k_fb_init laws in
  let applied :=
    Core.mkControlLaw k_fb_0 u_0
      :: map (Core.step_law k_fb_init) laws in
  length traj = S (length laws)
  /\ map snd traj = applied
  /\ map fst traj
     = map (fun i =>
              Core.chain onestep e0
                (Core.manual_laws u_0 k_fb_0 k_fb_init laws i))
           (seq 0 (S (length laws)))
  /\ (forall i e e' law,
         nth_error (map fst traj) i = Some e ->
         nth_error traj (S i) = Some (e', law) ->
         e' = onestep e law).
Proof.
  cbn zeta.
  assert (Htraj :
            Core.multistep_reachability onestep e0 u_0 k_fb_0
                                        k_fb_init laws
            = Core.by_hand onestep e0 (Core.mkControlLaw k_fb_0 u_0
                            :: map (Core.step_law k_fb_init) laws)).
  { unfold Core.multistep_reachability.
    rewrite multistep_loop_by_hand, by_hand_cons. reflexivity. }
  rewrite Htraj.
  set (ls := Core.mkControlLaw k_fb_0 u_0
               :: map (Core.step_law k_fb_init) laws).
  assert (Hlen : length ls = S (length laws)).
  { subst ls. cbn. rewrite length_map. reflexivity. }
  assert (Hfst : forall e l,
             map fst (Core.by_hand onestep e l)
             = map (fun i => Core.chain onestep e (firstn (S i) l))
                   (seq 0 (length l))).
  { intros e l. unfold Core.by_hand.
    rewrite map_fst_combine; [reflexivity|].
    rewrite length_map, length_seq. reflexivity. }
  assert (Hsnd : forall e l, map snd (Core.by_hand onestep e l) = l).
  { intros e l. unfold Core.by_hand.
    rewrite map_snd_combine; [reflexivity|].
    rewrite length_map, length_seq. reflexivity. }
  split; [|split; [|split]].
  - rewrite <- (length_map snd), Hsnd. exact Hlen.
  - apply Hsnd.
  - rewrite Hfst, Hlen. reflexivity.
  - clear Htraj Hlen. revert e0.
    induction ls as [|l ls IH]; intros e0 i e e' law He He'.
    + destruct i; discriminate.
    + rewrite by_hand_cons in He, He'.
      destruct i as [|i]; cbn [map nth_error fst] in He, He'.
      * injection He as <-.
        destruct ls as [|l' ls']; [discriminate|].
        rewrite by_hand_cons in He'. cbn in He'.
        injection He' as <- <-. reflexivity.
      * eapply IH; eauto.
Qed.

End MultiStepFacts.

(** ** The tolerances of the reachability tests *)

(** [np.allclose] with larger tolerances accepts whatever it accepts with
    smaller ones. *)
Lemma allclose_mono (rtol atol rtol' atol' : Q) (a : vec) :
  rtol <= rtol' -> atol <= atol' ->
  forall b,
    ReachabilityTest.allclose rtol atol a b = true ->
    ReachabilityTest.allclose rtol' atol' a b = true.
Proof.
  intros Hr Ha. unfold ReachabilityTest.allclose.
  induction a as [|x a IH]; intros [|y b]; cbn; auto.
  rewrite !andb_true_iff. intros [Hxy Hrest]. split; [|auto].
  unfold ReachabilityTest.isclose in *.
  apply Qle_bool_iff in Hxy. apply Qle_bool_iff.
  eapply Qle_trans; [exact Hxy|].
  apply Qplus_le_compat; [exact Ha|].
  apply Qmult_le_compat_r; [exact Hr|apply Qabs_nonneg].
Qed.

(** Arrays that pass the comparison of [test_multistep_reachability]
    ([rtol = 1e-4], [atol = 1e-5]), or the comparison of
    [test_onestep_reachability] (the defaults [rtol = 1e-5],
    [atol = 1e-8]), also agree within a relative tolerance of [1e-3] and
    an absolute tolerance of [1e-4]. *)
Lemma allclose_test_tolerance_is_stricter (a b : vec) :
  (ReachabilityTest.allclose ReachabilityTest.r_tol ReachabilityTest.a_tol
                             a b = true ->
   ReachabilityTest.allclose (1 # 1000) (1 # 10000) a b = true)
  /\ (ReachabilityTest.allclose (1 # 100000) (1 # 100000000) a b = true ->
      ReachabilityTest.allclose (1 # 1000) (1 # 10000) a b = true).
Proof.
  split; apply allclose_mono; unfold ReachabilityTest.r_tol,
    ReachabilityTest.a_tol; lraQ.
Qed.

(** * Further properties of the environments and of the rollout *)

(** ** Observations *)

Lemma obs_without_noise (inv : vec) :
  forall s : vec,
    Forall2 Qeq (vmul (map (fun x => x + 0) s) inv) (vmul inv s).
Proof.
  unfold vmul.
  induction inv as [|c inv IH]; intros [|x s]; cbn; constructor.
  - ring.
  - apply IH.
Qed.

(** ** What [step] keeps and what it returns *)

Lemma pendulum_check_only_ext :
  @check_only_ext InvertedPendulum.Attrs InvertedPendulum.methods.
Proof.
  intros e. cbn [_check_current_state InvertedPendulum.methods].
  unfold InvertedPendulum._check_current_state.
  match goal with |- context [if ?c then _ else _] => destruct c end;
    cbn; destruct e; reflexivity.
Qed.

Lemma cartpole_check_only_ext :
  @check_only_ext CartPole.Attrs CartPole.methods.
Proof. intros e. cbn. destruct e. reflexivity. Qed.

Lemma clip1_in_bounds (x lo hi : Q) :
  lo <= hi -> lo <= clip1 x lo hi /\ clip1 x lo hi <= hi.
Proof.
  intros Hle. unfold clip1.
  destruct (Q.max_spec x lo) as [[H1 Hmax]|[H1 Hmax]];
    destruct (Q.min_spec hi (Qmax x lo)) as [[H2 Hmin]|[H2 Hmin]];
    revert H1 H2 Hmax Hmin;
    generalize (Qmin hi (Qmax x lo)); generalize (Qmax x lo);
    intros mx mn H1 H2 Hmax Hmin; split; lraQ.
Qed.

Lemma clip1_inside (x lo hi : Q) :
  lo <= x -> x <= hi -> clip1 x lo hi == x.
Proof.
  intros Hlo Hhi. unfold clip1.
  destruct (Q.max_spec x lo) as [[H1 Hmax]|[H1 Hmax]];
    destruct (Q.min_spec hi (Qmax x lo)) as [[H2 Hmin]|[H2 Hmin]];
    revert H1 H2 Hmax Hmin;
    generalize (Qmin hi (Qmax x lo)); generalize (Qmax x lo);
    intros mx mn H1 H2 Hmax Hmin; lraQ.
Qed.

Lemma map2_length_min {A B C : Type} (f : A -> B -> C) (xs : list A) :
  forall ys, length (map2 f xs ys) = Nat.min (length xs) (length ys).
Proof.
  induction xs as [|x xs IH]; intros [|y ys]; cbn; auto.
Qed.

Section StepInvariants.
Context {X : Type} `{Libraries} `{Methods X}.
Hypothesis only_ext : check_only_ext.

Lemma only_ext_keeps_base : check_keeps_base.
Proof.
  intros e. cbn zeta. rewrite only_ext. cbn. auto.
Qed.

Lemma step_bookkeeping_holds (e : Environment X) (action : list xnum)
  (noise : vec) : step_bookkeeping e action noise.
Proof.
  unfold step_bookkeeping, step, integrate, set_f_params.
  cbn [ode_f_params ode_y ode_t].
  destruct (ode_run _ _ _ _) as [[y t'] ok].
  set (e1 := with_solver_and_state e _ y).
  pose proof (only_ext e1) as Hk.
  destruct (_check_current_state e1) as [[done code] e2].
  cbn [snd] in Hk.
  assert (He2 : fst (if successful (odesolver e2)
                     then (e2, ret (vmul (snd (inv_norm e2))
                                      (clip (nan_to_num
                                               (unnormalize_action e action))
                                            (u_min e) (u_max e)),
                                    state_to_obs e2 (current_state e2) None,
                                    state_to_obs e2 (current_state e2)
                                                 (Some noise),
                                    done, code))
                     else (e2, raise (ValueError "Odesolver failed!")))
                = e2).
  { destruct (successful (odesolver e2)); reflexivity. }
  rewrite He2, Hk. subst e1. cbn. repeat split; reflexivity.
Qed.

Lemma step_action_in_bounds_holds (e : Environment X) (action : list xnum)
  (noise : vec) : step_action_in_bounds e action noise.
Proof.
  unfold step_action_in_bounds.
  set (applied := unnormalize_action e action).
  intros out Hret.
  pose proof (step_actions_hold only_ext_keeps_base e action noise) as Hact.
  unfold step_actions in Hact.
  destruct (step e action noise) as [e' r]. cbn [snd] in Hret.
  destruct Hact as (_ & Hout & _).
  exists (clip (nan_to_num applied) (u_min e) (u_max e)).
  split; [exact (Hout out Hret)|]. split.
  - unfold clip, nan_to_num.
    rewrite map2_length_min, length_map, length_combine. reflexivity.
  - intros i c x lo hi Hc Hx Hlo Hhi Hle.
    assert (Hc' : nth_error (clip (nan_to_num applied) (u_min e) (u_max e)) i
                  = Some (clip1 (nan_to_num1 x) lo hi)).
    { apply clip_nth_error; auto.
      unfold nan_to_num. rewrite nth_error_map.
      exact (f_equal (option_map _) Hx). }
    rewrite Hc' in Hc. injection Hc as <-. split.
    + apply clip1_in_bounds. exact Hle.
    + intros q -> Hq1 Hq2. apply clip1_inside; assumption.
Qed.

End StepInvariants.

(** X3: in both environments a call of [step], whether it returns or
    raises, counts one more iteration and appends the new state to the
    trajectory of the episode, and it leaves the dimensions, the time
    step, the action bounds, the normalisation factors and the four
    constraint arrays as they were. *)
Theorem step_keeps_configuration `{Libraries}
  (ip : InvertedPendulum.env) (cp : CartPole.env)
  (action : list xnum) (noise : vec) :
  @step_bookkeeping _ _ InvertedPendulum.methods ip action noise
  /\ @step_bookkeeping _ _ CartPole.methods cp action noise.
Proof.
  split.
  - apply step_bookkeeping_holds. exact pendulum_check_only_ext.
  - apply step_bookkeeping_holds. exact cartpole_check_only_ext.
Qed.

(** X4: in both environments the action [step] returns is the
    normalisation of a clipped action of which every component lies
    between its two bounds (given in order), whatever the input was, NaN
    and infinities included; and a component of the applied action that is
    finite and within the bounds is returned unclipped. *)
Theorem step_returned_action_within_bounds `{Libraries}
  (ip : InvertedPendulum.env) (cp : CartPole.env)
  (action : list xnum) (noise : vec) :
  @step_action_in_bounds _ _ InvertedPendulum.methods ip action noise
  /\ @step_action_in_bounds _ _ CartPole.methods cp action noise.
Proof.
  split.
  - apply step_action_in_bounds_holds. exact pendulum_check_only_ext.
  - apply step_action_in_bounds_holds. exact cartpole_check_only_ext.
Qed.

(** The theorem at the example pendulum, with a NaN as action: the
    returned action is the normalisation of a clipped action within
    [-1, 1]. *)
Lemma step_returned_action_within_bounds_witness :
  exists clipped c,
    vmul (snd (inv_norm Examples.pendulum_unsafe)) clipped = [0]
    /\ nth_error clipped 0 = Some c
    /\ -1 <= c /\ c <= 1.
Proof.
  pose proof (proj1 (@step_returned_action_within_bounds
                       (Examples.stub_libraries true)
                       Examples.pendulum_unsafe Examples.cartpole
                       [NaN] [0; 0])) as Hb.
  unfold step_action_in_bounds in Hb.
  destruct (Hb ([0], [1; 0], [1; 0], true, 0%Z))
    as (clipped & Hret & Hlen & Hin).
  - vm_compute. reflexivity.
  - cbn [fst] in Hret. cbn in Hlen.
    destruct clipped as [|c [|? ?]]; try discriminate.
    exists [c], c. split; [symmetry; exact Hret|]. split; [reflexivity|].
    apply (Hin 0%nat c NaN (-1) 1); try reflexivity. lraQ.
Defined.

(** ** [CartPole._check_current_state] *)

Lemma Qle_bool_false_iff (a b : Q) : Qle_bool a b = false <-> b < a.
Proof.
  split; intro Hc.
  - apply Qnot_le_lt. intro Hle. apply Qle_bool_iff in Hle. congruence.
  - destruct (Qle_bool a b) eqn:E; [|reflexivity].
    apply Qle_bool_iff in E. exfalso. exact (Qlt_not_le _ _ Hc E).
Qed.

Lemma cartpole_done_iff (e : CartPole.env) (st : option vec) :
  let s := match st with None => current_state e | Some s => s end in
  fst (CartPole._check_current_state_of e st) = true <->
  (snd (CartPole.lim_x (ext e)) < nth 0 s 0
   \/ nth 0 s 0 < fst (CartPole.lim_x (ext e)))
  \/ (nth 2 s 0 < - CartPole.max_rad_theta (ext e)
      \/ CartPole.max_rad_theta (ext e) < nth 2 s 0).
Proof.
  cbn zeta. unfold CartPole._check_current_state_of.
  set (s := match st with None => current_state e | Some s => s end).
  rewrite <- !Qle_bool_false_iff.
  destruct (Qle_bool (nth 0 s 0) (snd (CartPole.lim_x (ext e))));
    destruct (Qle_bool (fst (CartPole.lim_x (ext e))) (nth 0 s 0));
    destruct (Qle_bool (- CartPole.max_rad_theta (ext e)) (nth 2 s 0));
    destruct (Qle_bool (nth 2 s 0) (CartPole.max_rad_theta (ext e)));
    cbn; intuition discriminate.
Qed.

(** X5: the cart-pole check reports the episode done exactly when the cart
    position is outside [lim_x] or the pole angle is beyond
    [max_rad_theta] in either direction.  The status code is 2 whenever
    the angle is beyond the limit (also when the cart is off the track as
    well), 1 when only the cart position is outside, and -1 exactly when
    the episode is not done. *)
Theorem cartpole_check_semantics (e : CartPole.env) (st : option vec) :
  let s := match st with None => current_state e | Some s => s end in
  let x := nth 0 s 0 in
  let theta := nth 2 s 0 in
  let off_track :=
    snd (CartPole.lim_x (ext e)) < x \/ x < fst (CartPole.lim_x (ext e)) in
  let fallen :=
    theta < - CartPole.max_rad_theta (ext e)
    \/ CartPole.max_rad_theta (ext e) < theta in
  let '(done, status_code) := CartPole._check_current_state_of e st in
  (done = true <-> off_track \/ fallen)
  /\ (status_code = 2%Z <-> fallen)
  /\ (status_code = 1%Z <-> off_track /\ ~ fallen)
  /\ (status_code = (-1)%Z <-> done = false).
Proof.
  cbn zeta. unfold CartPole._check_current_state_of.
  set (s := match st with None => current_state e | Some s => s end).
  destruct (Qle_bool (nth 0 s 0) (snd (CartPole.lim_x (ext e)))) eqn:E1;
    destruct (Qle_bool (fst (CartPole.lim_x (ext e))) (nth 0 s 0)) eqn:E2;
    destruct (Qle_bool (- CartPole.max_rad_theta (ext e)) (nth 2 s 0))
      eqn:E3;
    destruct (Qle_bool (nth 2 s 0) (CartPole.max_rad_theta (ext e)))
      eqn:E4;
    cbn;
    repeat match goal with
           | Hb : Qle_bool _ _ = true |- _ => apply Qle_bool_iff in Hb
           | Hb : Qle_bool _ _ = false |- _ =>
               apply Qle_bool_false_iff in Hb
           end;
    repeat split; intros; try discriminate; try reflexivity;
      try (exfalso; intuition lraQ); try solve [intuition lraQ];
      auto.
Qed.

(** X6: for a cart-pole built by its constructor, whenever the check
    reports a state done, that state violates a row of the stored obstacle
    polytope; the converse fails: the obstacle polytope also holds the row
    [-7.25 theta - omega <= 1] taken over from the safe polytope, which
    the state [[0, 0, 0, -2]] violates although the check does not report
    it done. *)
Theorem cartpole_done_implies_obstacle_violated `{Libraries}
  (dt l m M b g : Q) (u_min u_max : vec) (norm_x norm_u : option vec)
  (plant_noise : vec) (verbosity : Z) (x0 x1 x2 x3 : Q) :
  0 <= deg2rad 90 ->
  let cp := CartPole.init dt l m M b g u_min u_max norm_x norm_u
                          plant_noise verbosity in
  exists Ho ho,
    h_mat_obs cp = Some Ho /\ h_obs cp = Some ho
    /\ (fst (CartPole._check_current_state_of cp (Some [x0; x1; x2; x3]))
        = true ->
        exists i H_i h_i,
          nth_error Ho i = Some H_i /\ nth_error ho i = Some [h_i]
          /\ h_i < dot H_i [x0; x1; x2; x3])
    /\ (fst (CartPole._check_current_state_of cp (Some [0; 0; 0; -2]))
        = false
        /\ exists H_i h_i,
            nth_error Ho 2 = Some H_i /\ nth_error ho 2 = Some [h_i]
            /\ h_i < dot H_i [0; 0; 0; -2]).
Proof.
  intros Hrad cp.
  pose proof (cartpole_done_iff cp (Some [x0; x1; x2; x3])) as Hdone.
  pose proof (cartpole_done_iff cp (Some [0; 0; 0; -2])) as Hdone0.
  cbn zeta in Hdone, Hdone0.
  destruct (CartPole._check_current_state_of cp (Some [x0; x1; x2; x3]))
    as [done code].
  destruct (CartPole._check_current_state_of cp (Some [0; 0; 0; -2]))
    as [done0 code0].
  subst cp. unfold CartPole.init, CartPole._init_safety_constraints in *.
  cbn [h_mat_obs h_obs ext CartPole.lim_x CartPole.max_rad_theta fst snd
       nth] in *.
  eexists; eexists. split; [reflexivity|]. split; [reflexivity|].
  split.
  - cbn [fst]. intros Hd. apply Hdone in Hd.
    destruct Hd as [[Hx|Hx]|[Ht|Ht]].
    + exists 0%nat. eexists; eexists.
      split; [reflexivity|]. split; [reflexivity|]. cbn. lraQ.
    + exists 1%nat. eexists; eexists.
      split; [reflexivity|]. split; [reflexivity|]. cbn. lraQ.
    + exists 4%nat. eexists; eexists.
      split; [reflexivity|]. split; [reflexivity|]. cbn. lraQ.
    + exists 3%nat. eexists; eexists.
      split; [reflexivity|]. split; [reflexivity|]. cbn. lraQ.
  - cbn [fst]. split.
    + destruct done0; [|reflexivity].
      destruct (proj1 Hdone0 eq_refl) as [[Hx|Hx]|[Ht|Ht]]; lraQ.
    + eexists; eexists.
      split; [reflexivity|]. split; [reflexivity|]. cbn. lraQ.
Qed.

Lemma cartpole_done_implies_obstacle_violated_witness :
  exists Ho ho,
    h_mat_obs Examples.cartpole = Some Ho
    /\ h_obs Examples.cartpole = Some ho
    /\ (fst (CartPole._check_current_state_of Examples.cartpole
               (Some [4; 0; 0; 0])) = true ->
        exists i H_i h_i,
          nth_error Ho i = Some H_i /\ nth_error ho i = Some [h_i]
          /\ h_i < dot H_i [4; 0; 0; 0])
    /\ (fst (CartPole._check_current_state_of Examples.cartpole
               (Some [0; 0; 0; -2])) = false
        /\ exists H_i h_i,
            nth_error Ho 2 = Some H_i /\ nth_error ho 2 = Some [h_i]
            /\ h_i < dot H_i [0; 0; 0; -2]).
Proof.
  apply (@cartpole_done_implies_obstacle_violated
           (Examples.stub_libraries true) 0.1 0.5 0.5 0.5 0.1 9.82 [-4] [4]
           None None [0.0004; 0.0025; 0.0004; 0.0025] 1 4 0 0 0).
  apply Qle_bool_iff. vm_compute. reflexivity.
Defined.

(** ** The constraints and objectives of the pendulum *)

Lemma dot_split_last (n : nat) :
  forall row x : vec,
    length row = S n -> length x = n ->
    dot row (x ++ [1]) == dot (firstn n row) x + nth n row 0
    /\ skipn n row = [nth n row 0].
Proof.
  induction n as [|n IH]; intros row x Hrow Hx.
  - destruct x; [|discriminate].
    destruct row as [|a [|? ?]]; try discriminate. cbn. split; [ring|auto].
  - destruct x as [|b x]; [discriminate|].
    destruct row as [|a row]; [discriminate|].
    cbn in Hrow, Hx.
    destruct (IH row x) as [Hdot Hskip]; [lia|lia|].
    cbn [app dot firstn skipn nth]. rewrite Hdot. split; [ring|exact Hskip].
Qed.

(** X7: the constraint arrays the pendulum stores describe the facets of
    the convex hull of the corner points: for every row [(a, c)] of the
    hull equations, with normal [a] and offset [c], the stored row of
    [h_mat_safe] is [a], the stored entry of [h_safe] is [-c], and a state
    satisfies the stored inequality exactly when it satisfies the facet
    inequality [a . x + c <= 0]. *)
Theorem pendulum_constraints_are_hull_facets `{Libraries}
  (n_s : nat) (simple_constraints : bool) (i : nat) (row x : vec) :
  let '(Hm, h, _, _, corners) :=
    InvertedPendulum._init_safety_constraints n_s simple_constraints in
  nth_error (convex_hull_equations corners) i = Some row ->
  length row = S n_s ->
  length x = n_s ->
  exists H_i h_i,
    nth_error Hm i = Some H_i /\ nth_error h i = Some [h_i]
    /\ H_i = firstn n_s row /\ h_i = - nth n_s row 0
    /\ (dot H_i x <= h_i <-> dot row (x ++ [1]) <= 0).
Proof.
  unfold InvertedPendulum._init_safety_constraints. cbn zeta.
  set (corners := if simple_constraints then _ else _).
  intros Hrow Hlen Hx.
  destruct (dot_split_last n_s row x Hlen Hx) as [Hdot Hskip].
  exists (firstn n_s row), (- nth n_s row 0).
  split; [|split; [|split; [|split]]].
  - unfold cols_before. rewrite nth_error_map.
    exact (f_equal (option_map _) Hrow).
  - unfold mneg, cols_from. rewrite !nth_error_map.
    rewrite (f_equal (option_map (skipn n_s)) Hrow). cbn.
    rewrite Hskip. reflexivity.
  - reflexivity.
  - reflexivity.
  - rewrite Hdot. split; intro Hle; lraQ.
Qed.

Lemma pendulum_constraints_are_hull_facets_witness :
  let '(Hm, h, _, _, _) :=
    @InvertedPendulum._init_safety_constraints
      (Examples.stub_libraries true) 2 true in
  exists H_i h_i,
    nth_error Hm 0 = Some H_i /\ nth_error h 0 = Some [h_i]
    /\ H_i = firstn 2 [1; 0; -0.8] /\ h_i = - nth 2 [1; 0; -0.8] 0
    /\ (dot H_i [0.5; 0.1] <= h_i
        <-> dot [1; 0; -0.8] ([0.5; 0.1] ++ [1]) <= 0).
Proof.
  exact (@pendulum_constraints_are_hull_facets
           (Examples.stub_libraries true) 2 true 0 [1; 0; -0.8] [0.5; 0.1]
           eq_refl eq_refl eq_refl).
Defined.

(** X8: when the pendulum reaches its current objective (the angle is
    within the tolerance of it), the check advances the objective index by
    one and appends to [_achieved_objectives] the objective that is
    current after the advance; with the objectives set by the constructor
    this recorded value is never the objective that was reached. *)
Theorem pendulum_achieved_objective_is_next (e : InvertedPendulum.env) :
  InvertedPendulum._objective_thetas (ext e)
  = [-0.1; -0.25; 0.05; -0.2; 0.28; 0.2] ->
  Qle_bool (Qabs (nth 1 (current_state e) 0
                  - InvertedPendulum._current_objective (ext e)))
           (InvertedPendulum._objective_tolerance (ext e)) = true ->
  let a' := ext (snd (InvertedPendulum._check_current_state e)) in
  InvertedPendulum._current_objective_index a'
  = S (InvertedPendulum._current_objective_index (ext e))
  /\ InvertedPendulum._achieved_objectives a'
     = InvertedPendulum._achieved_objectives (ext e)
         ++ [InvertedPendulum._current_objective a']
  /\ InvertedPendulum._current_achieved_objective_states a'
     = InvertedPendulum._current_achieved_objective_states (ext e)
         ++ [current_state e]
  /\ ~ InvertedPendulum._current_objective a'
       == InvertedPendulum._current_objective (ext e).
Proof.
  intros Hth Hreach. unfold InvertedPendulum._check_current_state.
  rewrite Hreach. cbn.
  split; [reflexivity|]. split; [reflexivity|]. split; [reflexivity|].
  unfold InvertedPendulum._current_objective. cbn. rewrite Hth.
  cbn [length].
  set (i := InvertedPendulum._current_objective_index (ext e)).
  assert (Hk : (i mod 6 < 6)%nat) by (apply Nat.mod_upper_bound; lia).
  assert (Hs : (S i mod 6 = (i mod 6 + 1) mod 6)%nat).
  { replace (S i) with (i + 1)%nat by lia.
    rewrite <- Nat.Div0.add_mod_idemp_l. reflexivity. }
  rewrite Hs. clear Hs.
  destruct (i mod 6)%nat as [|[|[|[|[|[|k]]]]]]; try lia; clear Hk;
    cbn; intro Hc; unfold Qeq in Hc; cbn in Hc; discriminate.
Qed.

Lemma pendulum_achieved_objective_is_next_witness :
  let e := Examples.pendulum [0; -0.1] [-1] [1] [1; 1] [1]
                             (mkOde 0 [0; -0.1] [] true) in
  let a' := ext (snd (InvertedPendulum._check_current_state e)) in
  InvertedPendulum._current_objective_index a' = 1%nat
  /\ ~ InvertedPendulum._current_objective a'
       == InvertedPendulum._current_objective (ext e).
Proof.
  intros e a'.
  destruct (pendulum_achieved_objective_is_next e)
    as (Hi & _ & _ & Hne).
  - reflexivity.
  - vm_compute. reflexivity.
  - split; [exact Hi|exact Hne].
Defined.

(** ** [reset] *)

(** X9: in both environments [reset] marks the object as initialised,
    restarts the iteration count and the episode trajectory at the start
    state and returns the normalised start state, and the first [step]
    after it integrates from the start state over the time span from 0 to
    [dt]; the reset of the pendulum clears the list of achieved objective
    states but keeps the objective index and the list of achieved
    objectives. *)
Theorem reset_prepares_first_step `{Libraries}
  (ip : InvertedPendulum.env) (cp : CartPole.env) (start : vec)
  (action : list xnum) (noise : vec) :
  @reset_then_step _ _ InvertedPendulum.methods ip start action noise
  /\ @reset_then_step _ _ CartPole.methods cp start action noise
  /\ (let a' := ext (fst (@reset _ InvertedPendulum.methods ip start)) in
      InvertedPendulum._current_achieved_objective_states a' = []
      /\ InvertedPendulum._current_objective_index a'
         = InvertedPendulum._current_objective_index (ext ip)
      /\ InvertedPendulum._achieved_objectives a'
         = InvertedPendulum._achieved_objectives (ext ip)).
Proof.
  split; [|split].
  - unfold reset_then_step, reset.
    cbn [_reset InvertedPendulum.methods state_to_obs].
    pose proof (step_outcome_holds pendulum_check_keeps_base
                  (InvertedPendulum._reset (with_start_state ip start))
                  action noise) as Hout.
    unfold step_outcome in Hout.
    cbn [InvertedPendulum._reset with_start_state with_odesolver with_ext
         odesolver set_initial_value ode_y ode_t dt current_state
         is_initialized iteration current_episode_trajectory inv_norm]
      in *.
    repeat (split; [reflexivity|]). split.
    + apply obs_without_noise.
    + unfold unnormalize_action in *.
      cbn [norm with_ext with_odesolver with_start_state] in *.
      destruct (ode_run _ _ _ _) as [[y t'] ok].
      destruct (_check_current_state _) as [[done code] e2].
      destruct (step _ action noise) as [e' r]. cbn [fst].
      destruct Hout as [Ho _]. exact Ho.
  - unfold reset_then_step, reset.
    cbn [_reset CartPole.methods state_to_obs].
    pose proof (step_outcome_holds cartpole_check_keeps_base
                  (CartPole._reset (with_start_state cp start))
                  action noise) as Hout.
    unfold step_outcome in Hout.
    cbn [CartPole._reset with_start_state with_odesolver
         odesolver set_initial_value ode_y ode_t dt current_state
         is_initialized iteration current_episode_trajectory inv_norm]
      in *.
    repeat (split; [reflexivity|]). split.
    + apply obs_without_noise.
    + unfold unnormalize_action in *.
      cbn [norm with_odesolver with_start_state] in *.
      destruct (ode_run _ _ _ _) as [[y t'] ok].
      destruct (_check_current_state _) as [[done code] e2].
      destruct (step _ action noise) as [e' r]. cbn [fst].
      destruct Hout as [Ho _]. exact Ho.
  - cbn. auto.
Qed.

(** ** The rollout: what it raises and what it records *)

(** [every k' skip] keeps the rows at the indices [skip], [skip + k],
    [skip + 2k], ... for [k = S k']. *)
Lemma every_nth_error (k' : nat) :
  forall (rows : mat) (skip j : nat),
    nth_error (every k' skip rows) j = nth_error rows (skip + j * S k').
Proof.
  induction rows as [|r rows IH]; intros skip j.
  - cbn. destruct j, (skip + _)%nat; reflexivity.
  - destruct skip as [|skip]; cbn [every].
    + destruct j as [|j]; [reflexivity|].
      cbn [nth_error]. rewrite IH.
      replace (0 + S j * S k')%nat with (S (k' + j * S k')) by lia.
      reflexivity.
    + rewrite IH. reflexivity.
Qed.

Lemma every_length (k' : nat) :
  forall (rows : mat) (skip : nat),
    (skip <= k')%nat ->
    length (every k' skip rows) = ((length rows + (k' - skip)) / S k')%nat.
Proof.
  induction rows as [|r rows IH]; intros skip Hskip.
  - cbn [every length]. symmetry. apply Nat.div_small. lia.
  - destruct skip as [|skip]; cbn [every length].
    + rewrite IH by lia.
      replace (k' - k')%nat with 0%nat by lia.
      replace (S (length rows) + (k' - 0))%nat
        with (length rows + 0 + 1 * S k')%nat by lia.
      rewrite Nat.div_add by lia. lia.
    + rewrite IH by lia. f_equal. lia.
Qed.

Lemma removelast_length {A : Type} (l : list A) :
  length (removelast l) = (length l - 1)%nat.
Proof.
  destruct l as [|x l] using rev_ind; [reflexivity|].
  rewrite removelast_last, length_app. cbn. lia.
Qed.

Section RolloutShape.
Context {X Sv : Type} `{Libraries} `{Methods X} `{Solver Sv}.

(** The number of passes made, and what each of them records. *)
Lemma rollout_loop_counts (cost : option (vec -> Q)) (draws : list Draw) :
  forall env solver v env' solver' v',
    rollout_loop draws cost env solver v = (env', solver', inr v') ->
    exists k,
      (k <= length draws)%nat
      /\ n_successful v' = (n_successful v + k)%nat
      /\ length (exit_codes v') = (length (exit_codes v) + k)%nat
      /\ length (xx v') = (length (xx v) + k)%nat
      /\ length (yy v') = (length (yy v) + k)%nat
      /\ length (cc v')
         = (length (cc v) + match cost with Some _ => k | None => 0 end)%nat
      /\ (safety_failure v' = true
          \/ (safety_failure v' = safety_failure v /\ k = length draws))
      /\ (solver = None ->
          exists codes, exit_codes v' = exit_codes v ++ codes
                        /\ Forall (fun c => c = 5%Z) codes
                        /\ mpc_results v' = mpc_results v).
Proof.
  induction draws as [|d draws IH]; intros env solver v env' solver' v' Hrun.
  - cbn in Hrun. injection Hrun as _ _ <-. exists 0%nat.
    repeat split; auto; try lia.
    + destruct cost; lia.
    + intros _. exists []. rewrite app_nil_r. auto.
  - cbn [rollout_loop] in Hrun.
    assert (Hsolver :
              exists action code solver1 results1,
                match solver with
                | Some s =>
                    let '(action, mpc_result, s') :=
                      get_action s (state v) in
                    (action, exit_code_of mpc_result, Some s',
                     mpc_results v ++ [mpc_result])
                | None => (random_action d, 5%Z, None, mpc_results v)
                end = (action, code, solver1, results1)
                /\ (solver = None ->
                    code = 5%Z /\ solver1 = None
                    /\ results1 = mpc_results v)).
    { destruct solver as [s|].
      - destruct (get_action s (state v)) as [[a r] s1].
        do 4 eexists. split; [reflexivity|discriminate].
      - do 4 eexists. split; [reflexivity|auto]. }
    destruct Hsolver as (action & code & solver1 & results1 & Heq & Hnone).
    rewrite Heq in Hrun. clear Heq.
    destruct (step env action (obs_noise d)) as [env1 [e|out]].
    + discriminate.
    + destruct out as [[[[a' next_state] observation] done] env_result'].
      destruct done.
      * injection Hrun as _ _ <-. cbn. exists 1%nat.
        rewrite !length_app. cbn.
        repeat split; auto; try lia.
        -- destruct cost; rewrite ?length_app; cbn; lia.
        -- intros Hs. destruct (Hnone Hs) as (-> & _ & ->).
           exists [5%Z]. auto.
      * apply IH in Hrun.
        destruct Hrun as (k & Hk & Hn & Hc & Hx & Hy & Hcc & Hsf & Hno).
        cbn in Hn, Hc, Hx, Hy, Hcc, Hsf, Hno.
        rewrite !length_app in *. cbn in *.
        exists (S k). repeat split; try lia.
        -- destruct cost; rewrite ?length_app in Hcc; cbn in Hcc; lia.
        -- destruct Hsf as [Hsf|[Hsf ->]]; auto.
        -- intros Hs. destruct (Hnone Hs) as (-> & -> & ->).
           destruct (Hno eq_refl) as (codes & Hcodes & Hall & Hres).
           exists (5%Z :: codes). rewrite Hcodes, <- app_assoc.
           auto.
Qed.

End RolloutShape.

Section RolloutResults.
Context {X Sv : Type} `{Libraries} `{Methods X} `{Solver Sv} `{Plotting X}.


(** A rollout that returns has passed the set-up of the figure, its loop
    has returned after at least one step, the step of the slices is
    positive, and what it returns is read off the variables of the
    loop. *)
Lemma do_rollout_inv (env : Environment X) (start : vec)
  (draws : list Draw) (solver : option Sv) (cost : option (vec -> Q))
  (obs_frequency : nat) (plot_trajectory : bool) xs ys cs codes failed :
  snd (do_rollout env start draws solver cost obs_frequency plot_trajectory)
  = ret (xs, ys, cs, codes, failed) ->
  let env0 := fst (reset env start) in
  let state0 := snd (reset env start) in
  exists env1 solver1 v k',
    rollout_loop draws cost env0 solver
      (mkLocals state0 [repeat 0 (n_s env0 + n_u env0)]
                [repeat 0 (n_s env0)] [0%Z] [] 0 [] (-1)%Z false)
    = (env1, solver1, inr v)
    /\ n_successful v <> 0%nat
    /\ obs_frequency = S k'
    /\ xs = every k' 0 (removelast (tl (xx v)))
    /\ ys = every k' 0 (removelast (tl (yy v)))
    /\ cs = cc v
    /\ codes = tl (exit_codes v)
    /\ failed = safety_failure v.
Proof.
  unfold do_rollout.
  destruct (reset env start) as [env0 state0]. cbn [fst snd].
  destruct (plot_trajectory && negb has_plot_methods); [discriminate|].
  destruct (rollout_loop draws cost env0 solver _)
    as [[env1 solver1] [e|v]] eqn:Hloop; [discriminate|].
  destruct (Nat.eqb (n_successful v) 0) eqn:Hn; [discriminate|].
  destruct obs_frequency as [|k']; [discriminate|].
  cbn. intros Hret. unfold ret in Hret.
  injection Hret as <- <- <- <- <-.
  apply Nat.eqb_neq in Hn.
  exists env1, solver1, v, k'. repeat split; auto.
Qed.




(** X11: what a rollout that returns has recorded, in terms of the steps
    it has made.  It has made between one and [n_steps] steps, all
    [n_steps] of them unless it reports a safety failure, which it does
    exactly when a step was done; the first step starts at the start
    state and each further step at the next state of the step before;
    [obs_frequency] is positive; it returns the exit code of every step,
    in order; row [j] of the array of inputs is the state and the
    returned action of step [j * obs_frequency], and row [j] of the array
    of observations is the observation of that step, where the last step
    made is left out of both arrays, so that both have
    [ceil ((steps - 1) / obs_frequency)] rows; and the costs are those of
    the next state of every step when a cost function is given, none
    otherwise. *)
Theorem do_rollout_records (env : Environment X) (start : vec)
  (draws : list Draw) (solver : option Sv) (cost : option (vec -> Q))
  (obs_frequency : nat) (plot_trajectory : bool) xs ys cs codes failed :
  snd (do_rollout env start draws solver cost obs_frequency plot_trajectory)
  = ret (xs, ys, cs, codes, failed) ->
  let steps :=
    rollout_steps draws (fst (reset env start)) solver
                  (snd (reset env start)) in
  let inputs := map (fun r => at_state r ++ returned_action r) steps in
  let observations := map observation steps in
  (1 <= length steps <= length draws)%nat
  /\ (0 < obs_frequency)%nat
  /\ codes = map exit_code_of_step steps
  /\ failed = existsb done steps
  /\ (failed = false -> length steps = length draws)
  /\ (forall first,
         nth_error steps 0 = Some first ->
         at_state first = snd (reset env start))
  /\ (forall i a b,
         nth_error steps i = Some a ->
         nth_error steps (S i) = Some b ->
         at_state b = next_state a)
  /\ (forall j,
         nth_error xs j
         = nth_error (removelast inputs) (j * obs_frequency))
  /\ (forall j,
         nth_error ys j
         = nth_error (removelast observations) (j * obs_frequency))
  /\ length xs
     = ((length steps - 1 + (obs_frequency - 1)) / obs_frequency)%nat
  /\ length ys = length xs
  /\ cs = match cost with
          | Some c => map (fun r => c (next_state r)) steps
          | None => []
          end.
Proof.
  intros Hret. apply do_rollout_inv in Hret. cbn zeta in Hret.
  destruct Hret
    as (env1 & solver1 & v & k' & Hloop & Hn & -> & -> & -> & -> & ->
        & ->).
  apply rollout_loop_steps in Hloop. cbn zeta in Hloop.
  cbn [state xx yy exit_codes cc n_successful mpc_results safety_failure]
    in Hloop.
  destruct Hloop as (Hc & Hx & Hy & Hcc & _ & Hcount & Hs & Hl & Hd).
  destruct (rollout_steps_chain draws (fst (reset env start)) solver
              (snd (reset env start))) as [Hfirst Hchain].
  cbn zeta. rewrite Hc, Hx, Hy, Hcc, Hs. cbn [app tl orb].
  rewrite Hcount in Hn. cbn [Nat.add] in Hn.
  split; [lia|]. split; [lia|]. split; [reflexivity|].
  split; [reflexivity|]. split; [exact Hd|].
  split; [intros first Hf; apply (Hfirst first Hf)|].
  split; [intros i a b Ha Hb; apply (Hchain i a b Ha Hb)|].
  split; [intros j; rewrite every_nth_error; reflexivity|].
  split; [intros j; rewrite every_nth_error; reflexivity|].
  split.
  { rewrite every_length by lia. rewrite removelast_length, length_map.
    f_equal; lia. }
  split; [|reflexivity].
  rewrite !every_length by lia. rewrite !removelast_length, !length_map.
  reflexivity.
Qed.

(** X12: a rollout without a solver records the exit code 5 for every
    step. *)
Theorem do_rollout_without_solver_codes (env : Environment X) (start : vec)
  (draws : list Draw) (cost : option (vec -> Q)) (obs_frequency : nat)
  (plot_trajectory : bool) xs ys cs codes failed :
  snd (do_rollout env start draws None cost obs_frequency plot_trajectory)
  = ret (xs, ys, cs, codes, failed) ->
  Forall (fun c => c = 5%Z) codes /\ codes <> [].
Proof.
  intros Hret. apply do_rollout_inv in Hret. cbn zeta in Hret.
  destruct Hret
    as (env1 & solver1 & v & k' & Hloop & Hn & _ & _ & _ & _ & -> & _).
  apply rollout_loop_counts in Hloop.
  destruct Hloop as (k & _ & Hns & Hc & _ & _ & _ & _ & Hnone).
  destruct (Hnone eq_refl) as (fives & Hcodes & Hall & _).
  cbn in Hcodes, Hns, Hc. rewrite Hcodes. cbn [tl app]. split; [exact Hall|].
  intros ->. rewrite Hcodes in Hc. cbn in Hc. lia.
Qed.

End RolloutResults.

Lemma do_rollout_records_witness :
  let steps :=
    @rollout_steps _ nat (Examples.stub_libraries true)
      InvertedPendulum.methods Examples.counting_solver
      Examples.three_draws
      (fst (@reset _ InvertedPendulum.methods Examples.pendulum_safe
                   [0; 0]))
      None
      (snd (@reset _ InvertedPendulum.methods Examples.pendulum_safe
                   [0; 0])) in
  (1 <= length steps <= 3)%nat
  /\ [5%Z; 5%Z; 5%Z] = map exit_code_of_step steps
  /\ false = existsb done steps
  /\ (forall j,
         nth_error [[0; 0; 0]] j
         = nth_error
             (removelast
                (map (fun r => at_state r ++ returned_action r) steps))
             (j * 2))
  /\ [0; 0; 0] = map (fun r => nth 0 (next_state r) 0) steps.
Proof.
  intros steps.
  assert (Hrun :
            snd (@do_rollout _ nat (Examples.stub_libraries true)
                   InvertedPendulum.methods Examples.counting_solver
                   InvertedPendulum.plotting
                   Examples.pendulum_safe [0; 0] Examples.three_draws None
                   (Some (fun s => nth 0 s 0)) 2%nat true)
            = ret ([[0; 0; 0]], [[0; 0]], [0; 0; 0], [5%Z; 5%Z; 5%Z],
                   false))
    by (vm_compute; reflexivity).
  destruct (do_rollout_records _ _ _ _ _ _ _ _ _ _ _ _ Hrun)
    as (Hsteps & _ & Hcodes & Hfailed & _ & _ & _ & Hxs & _ & _ & _
        & Hcs).
  repeat split; try assumption; apply Hsteps.
Defined.

Lemma do_rollout_without_solver_codes_witness :
  Forall (fun c => c = 5%Z) [5%Z; 5%Z; 5%Z] /\ [5%Z; 5%Z; 5%Z] <> [].
Proof.
  apply (@do_rollout_without_solver_codes _ nat
           (Examples.stub_libraries true)
           InvertedPendulum.methods Examples.counting_solver
           InvertedPendulum.plotting
           Examples.pendulum_safe [0; 0] Examples.three_draws
           (Some (fun s => nth 0 s 0)) 2%nat true
           [[0; 0; 0]] [[0; 0]] [0; 0; 0] [5%Z; 5%Z; 5%Z] false).
  vm_compute. reflexivity.
Defined.

Section RolloutReturns.
Context {X Sv : Type} `{Libraries} `{Methods X} `{Solver Sv} `{Plotting X}.
Hypothesis keeps : check_keeps_base.

Section Integrates.
Hypothesis integrates :
  forall params y t t1, snd (ode_run params y t t1) = true.





End Integrates.

Section IntegrationFails.
Hypothesis fails :
  forall params y t t1, snd (ode_run params y t t1) = false.




End IntegrationFails.

End RolloutReturns.





(** ** Random actions *)

Lemma map2_nth_error_inv {A B C : Type} (f : A -> B -> C) (xs : list A) :
  forall ys i c,
    nth_error (map2 f xs ys) i = Some c ->
    exists x y, nth_error xs i = Some x /\ nth_error ys i = Some y
                /\ c = f x y.
Proof.
  induction xs as [|a xs IH]; intros [|b ys] [|i] c Hc;
    cbn in *; try discriminate.
  - injection Hc as <-. eauto.
  - eauto.
Qed.

(** A component of [r * (hi - lo) + lo], with [hi] and [lo] the
    normalised bounds. *)
Lemma scaled_draw_nth_error {X : Type} (e : Environment X) (r : vec)
  (i : nat) (a : Q) :
  nth_error (vadd (vmul r (vsub (u_max_norm e) (u_min_norm e)))
                  (u_min_norm e)) i = Some a ->
  exists ri inv lo hi,
    nth_error r i = Some ri
    /\ nth_error (snd (inv_norm e)) i = Some inv
    /\ nth_error (u_min e) i = Some lo
    /\ nth_error (u_max e) i = Some hi
    /\ nth_error (u_min_norm e) i = Some (inv * lo)
    /\ nth_error (u_max_norm e) i = Some (inv * hi)
    /\ a = ri * (inv * hi - inv * lo) + inv * lo.
Proof.
  unfold vadd, vmul, vsub, u_max_norm, u_min_norm, vmul. intros Ha.
  apply map2_nth_error_inv in Ha. destruct Ha as (p & ln & Hp & Hln & ->).
  apply map2_nth_error_inv in Hp. destruct Hp as (ri & d & Hri & Hd & ->).
  apply map2_nth_error_inv in Hd. destruct Hd as (hn & ln' & Hhn & Hln' & ->).
  rewrite Hln in Hln'. injection Hln' as <-.
  pose proof Hln as Hln0. pose proof Hhn as Hhn0.
  apply map2_nth_error_inv in Hln.
  destruct Hln as (inv & lo & Hinv & Hlo & ->).
  apply map2_nth_error_inv in Hhn.
  destruct Hhn as (inv' & hi & Hinv' & Hhi & ->).
  rewrite Hinv in Hinv'. injection Hinv' as <-.
  exists ri, inv, lo, hi. repeat split; auto.
Qed.

(** X14: a random action of the cart-pole lies, component by component,
    between the normalised action bounds, and a random action of the
    pendulum between half the normalised bounds, when the bounds are in
    order and the draw is in the unit interval. *)
Theorem random_action_within_normalised_bounds
  (ip : InvertedPendulum.env) (cp : CartPole.env) (r : vec) (i : nat)
  (a ri : Q) :
  nth_error r i = Some ri -> 0 <= ri -> ri <= 1 ->
  (nth_error (CartPole.random_action cp r) i = Some a ->
   exists lo hi,
     nth_error (u_min_norm cp) i = Some lo
     /\ nth_error (u_max_norm cp) i = Some hi
     /\ (lo <= hi -> lo <= a /\ a <= hi))
  /\ (nth_error (InvertedPendulum.random_action ip r) i = Some a ->
      exists lo hi,
        nth_error (u_min_norm ip) i = Some lo
        /\ nth_error (u_max_norm ip) i = Some hi
        /\ (lo <= hi -> 0.5 * lo <= a /\ a <= 0.5 * hi)).
Proof.
  intros Hri H0 H1. split.
  - unfold CartPole.random_action. intros Ha.
    apply scaled_draw_nth_error in Ha.
    destruct Ha as (ri' & inv & lo & hi & Hr & _ & _ & _ & Hlo & Hhi & ->).
    rewrite Hri in Hr. injection Hr as <-.
    exists (inv * lo), (inv * hi). split; [exact Hlo|].
    split; [exact Hhi|]. intros Hle.
    generalize dependent (inv * lo). generalize dependent (inv * hi).
    intros h _ l _ Hle. split; Lqa.nra.
  - unfold InvertedPendulum.random_action. intros Ha.
    rewrite nth_error_map in Ha.
    destruct (nth_error (vadd _ _) i) as [a0|] eqn:Ha0; [|discriminate].
    cbn in Ha. injection Ha as <-.
    apply scaled_draw_nth_error in Ha0.
    destruct Ha0 as (ri' & inv & lo & hi & Hr & _ & _ & _ & Hlo & Hhi & ->).
    rewrite Hri in Hr. injection Hr as <-.
    exists (inv * lo), (inv * hi). split; [exact Hlo|].
    split; [exact Hhi|]. intros Hle.
    generalize dependent (inv * lo). generalize dependent (inv * hi).
    intros h _ l _ Hle. split; Lqa.nra.
Qed.

Lemma random_action_within_normalised_bounds_witness :
  exists lo hi,
    nth_error (u_min_norm Examples.cartpole) 0 = Some lo
    /\ nth_error (u_max_norm Examples.cartpole) 0 = Some hi
    /\ (lo <= hi -> lo <= -12800 # 51200 /\ -12800 # 51200 <= hi).
Proof.
  refine (proj1 (random_action_within_normalised_bounds
                   Examples.pendulum_safe Examples.cartpole [0.25] 0
                   (-12800 # 51200) 0.25 _ _ _) _).
  - reflexivity.
  - lraQ.
  - lraQ.
  - vm_compute. reflexivity.
Defined.

(** ** The done flag of [step] *)

(** Some entry of the residual [H x - h^T] is positive exactly when some
    row of [H x <= h] is violated. *)
Lemma residual_positive_iff (Hm h : mat) (x : vec) :
  length h = length Hm ->
  Forall (fun r => length r = 1%nat) h ->
  any_gt0 (vsub_broadcast_rows (matvec Hm x) (transpose h)) = true <->
  exists i H_i h_i,
    nth_error Hm i = Some H_i /\ nth_error h i = Some [h_i]
    /\ h_i < dot H_i x.
Proof.
  intros Hlen Hshape.
  destruct h as [|r0 hs].
  - destruct Hm; [|discriminate]. cbn. split; [discriminate|].
    intros (i & ? & ? & Hi & _). destruct i; discriminate.
  - rewrite transpose_column by (auto; discriminate).
    unfold vsub_broadcast_rows, any_gt0. cbn [existsb map].
    rewrite orb_false_r, existsb_gt0_vsub. split.
    + intros (i & a & b & Ha & Hb & Hlt).
      rewrite matvec_nth_error in Ha. rewrite col_nth_error in Hb.
      destruct (nth_error Hm i) as [H_i|] eqn:EH; [|discriminate].
      destruct (nth_error (r0 :: hs) i) as [r|] eqn:Er; [|discriminate].
      cbn in Ha, Hb. injection Ha as <-. injection Hb as <-.
      assert (Hr : length r = 1%nat).
      { rewrite Forall_forall in Hshape. apply Hshape.
        eapply nth_error_In; eauto. }
      destruct r as [|h_i [|? ?]]; try discriminate.
      exists i, H_i, h_i. auto.
    + intros (i & H_i & h_i & EH & Er & Hlt).
      exists i, (dot H_i x), h_i.
      rewrite matvec_nth_error, col_nth_error, EH, Er. auto.
Qed.

(** X16: the done flag [step] returns is about the state reached by the
    integration, not the state before the call: with the pendulum it is
    true exactly when the new state violates a row of the stored safe
    polytope (and the result code is 0), with the cart-pole exactly when
    in the new state the cart is off the track or the pole beyond the
    angle limit. *)
Theorem step_done_is_about_the_new_state `{Libraries}
  (ip : InvertedPendulum.env) (cp : CartPole.env)
  (action : list xnum) (noise : vec) :
  length (h_safe ip) = length (h_mat_safe ip) ->
  Forall (fun r => length r = 1%nat) (h_safe ip) ->
  (let '(y, _, _) :=
     ode_run (@unnormalize_action _ ip action) (ode_y (odesolver ip))
             (ode_t (odesolver ip)) (ode_t (odesolver ip) + dt ip) in
   forall a' obs nobs done code,
     snd (@step _ _ InvertedPendulum.methods ip action noise)
     = ret (a', obs, nobs, done, code) ->
     code = 0%Z
     /\ (done = true <->
         exists i H_i h_i,
           nth_error (h_mat_safe ip) i = Some H_i
           /\ nth_error (h_safe ip) i = Some [h_i]
           /\ h_i < dot H_i y))
  /\ (let '(y, _, _) :=
        ode_run (@unnormalize_action _ cp action) (ode_y (odesolver cp))
                (ode_t (odesolver cp)) (ode_t (odesolver cp) + dt cp) in
      forall a' obs nobs done code,
        snd (@step _ _ CartPole.methods cp action noise)
        = ret (a', obs, nobs, done, code) ->
        (done = true <->
         (snd (CartPole.lim_x (ext cp)) < nth 0 y 0
          \/ nth 0 y 0 < fst (CartPole.lim_x (ext cp)))
         \/ (nth 2 y 0 < - CartPole.max_rad_theta (ext cp)
             \/ CartPole.max_rad_theta (ext cp) < nth 2 y 0))).
Proof.
  intros Hlen Hshape. split.
  - pose proof (step_outcome_holds pendulum_check_keeps_base ip action noise)
      as Hout.
    unfold step_outcome in Hout.
    destruct (ode_run _ _ _ _) as [[y t'] ok].
    set (e1 := with_solver_and_state ip _ y) in Hout.
    destruct (pendulum_check_result e1) as [e2 He2].
    cbn [_check_current_state InvertedPendulum.methods] in Hout.
    rewrite He2 in Hout.
    destruct (step ip action noise) as [e' r].
    destruct Hout as (_ & _ & Hr).
    intros a' obs nobs done code Hret. cbn [snd] in Hret.
    destruct ok; rewrite Hr in Hret; [|discriminate].
    unfold ret in Hret. injection Hret as _ _ _ <- <-.
    split; [reflexivity|].
    subst e1. cbn [h_mat_safe h_safe current_state with_solver_and_state].
    apply residual_positive_iff; assumption.
  - pose proof (step_outcome_holds cartpole_check_keeps_base cp action noise)
      as Hout.
    unfold step_outcome in Hout.
    destruct (ode_run _ _ _ _) as [[y t'] ok].
    set (e1 := with_solver_and_state cp _ y) in Hout.
    cbn [_check_current_state CartPole.methods] in Hout.
    unfold CartPole._check_current_state in Hout.
    pose proof (cartpole_done_iff e1 None) as Hdone. cbn zeta in Hdone.
    destruct (CartPole._check_current_state_of e1 None) as [done0 code0].
    destruct (step cp action noise) as [e' r].
    destruct Hout as (_ & _ & Hr).
    intros a' obs nobs done code Hret. cbn [snd] in Hret.
    destruct ok; rewrite Hr in Hret; [|discriminate].
    unfold ret in Hret. injection Hret as _ _ _ <- <-.
    exact Hdone.
Qed.

Lemma step_done_is_about_the_new_state_witness :
  0%Z = 0%Z
  /\ (true = true <->
      exists i H_i h_i,
        nth_error (h_mat_safe Examples.pendulum_unsafe) i = Some H_i
        /\ nth_error (h_safe Examples.pendulum_unsafe) i = Some [h_i]
        /\ h_i < dot H_i [1; 0]).
Proof.
  refine (proj1 (@step_done_is_about_the_new_state
                   (Examples.stub_libraries true)
                   Examples.pendulum_unsafe Examples.cartpole
                   [Fin 3] [0; 0] _ _) [1] [1; 0] [1; 0] true 0%Z _).
  - reflexivity.
  - repeat constructor.
  - vm_compute. reflexivity.
Defined.

(** The comparison of the tests at two arrays one millionth apart. *)
Lemma allclose_test_tolerance_is_stricter_witness :
  ReachabilityTest.allclose (1 # 1000) (1 # 10000) [1] [1.000001] = true.
Proof.
  apply (proj1 (allclose_test_tolerance_is_stricter [1] [1.000001])).
  vm_compute. reflexivity.
Defined.
